(** * CSBC2000: the single-node ledger of [src/blockchain/Blockchain.js]

    A shallow embedding of the engine (transactions, merkle construction,
    sealing, proof-of-work search, block assembly, chain validation) and the
    properties of its specification that were checked against it.

    The engine seals with [crypto.createHmac('sha256', "secret")]; the
    digest is modelled bit for bit (FIPS 180-4 and RFC 2104), so that the
    comparisons of digests the validator performs can be evaluated.  What
    comes from outside the program (the clock, the random bytes of the
    nonce search, the UUID generator, and the room the call stack leaves
    to the recursion of the search) is an explicit argument of the
    operations that depend on it. *)

From Stdlib Require Import String Ascii ZArith List Bool Arith Lia.
From Stdlib Require Strings.Byte.
Import Init.Byte.
Import ListNotations.

Local Open Scope Z_scope.

(** ** SHA-256 and HMAC over byte lists

    Words are 32-bit values held in [Z]; every addition is cut back to its
    low 32 bits. *)
Module SHA256.

Definition wrap32 (x : Z) : Z := Z.land x 4294967295.

Definition add32 (x y : Z) : Z := wrap32 (x + y).

Definition rotr (n x : Z) : Z :=
  Z.lor (Z.shiftr x n) (wrap32 (Z.shiftl x (32 - n))).

Definition not32 (x : Z) : Z := Z.lxor x 4294967295.

Definition Ch (x y z : Z) : Z :=
  Z.lxor (Z.land x y) (Z.land (not32 x) z).

Definition Maj (x y z : Z) : Z :=
  Z.lxor (Z.lxor (Z.land x y) (Z.land x z)) (Z.land y z).

Definition bsig0 (x : Z) : Z :=
  Z.lxor (Z.lxor (rotr 2 x) (rotr 13 x)) (rotr 22 x).

Definition bsig1 (x : Z) : Z :=
  Z.lxor (Z.lxor (rotr 6 x) (rotr 11 x)) (rotr 25 x).

Definition ssig0 (x : Z) : Z :=
  Z.lxor (Z.lxor (rotr 7 x) (rotr 18 x)) (Z.shiftr x 3).

Definition ssig1 (x : Z) : Z :=
  Z.lxor (Z.lxor (rotr 17 x) (rotr 19 x)) (Z.shiftr x 10).

(** The first sixty-four primes; the round constants and the initial
    state are derived from them (see [round_constants_spec] and
    [initial_state_spec] below). *)
Definition primes64 : list Z :=
  [2; 3; 5; 7; 11; 13; 17; 19; 23; 29; 31; 37; 41; 43; 47; 53;
   59; 61; 67; 71; 73; 79; 83; 89; 97; 101; 103; 107; 109; 113; 127; 131;
   137; 139; 149; 151; 157; 163; 167; 173; 179; 181; 191; 193; 197; 199;
   211; 223; 227; 229; 233; 239; 241; 251; 257; 263; 269; 271; 277; 281;
   283; 293; 307; 311].

(** Integer cube root by bisection on the bits [b-1 .. 0]. *)
Fixpoint cbrt_bits (b : nat) (n r : Z) : Z :=
  match b with
  | O => r
  | S b' =>
      let c := r + Z.shiftl 1 (Z.of_nat b') in
      cbrt_bits b' n (if c * c * c <=? n then c else r)
  end.

Definition frac_cbrt32 (p : Z) : Z := wrap32 (cbrt_bits 35 (Z.shiftl p 96) 0).
Definition frac_sqrt32 (p : Z) : Z := wrap32 (Z.sqrt (Z.shiftl p 64)).

Definition round_constants : list Z :=
  [1116352408; 1899447441; 3049323471; 3921009573;
   961987163; 1508970993; 2453635748; 2870763221;
   3624381080; 310598401; 607225278; 1426881987;
   1925078388; 2162078206; 2614888103; 3248222580;
   3835390401; 4022224774; 264347078; 604807628;
   770255983; 1249150122; 1555081692; 1996064986;
   2554220882; 2821834349; 2952996808; 3210313671;
   3336571891; 3584528711; 113926993; 338241895;
   666307205; 773529912; 1294757372; 1396182291;
   1695183700; 1986661051; 2177026350; 2456956037;
   2730485921; 2820302411; 3259730800; 3345764771;
   3516065817; 3600352804; 4094571909; 275423344;
   430227734; 506948616; 659060556; 883997877;
   958139571; 1322822218; 1537002063; 1747873779;
   1955562222; 2024104815; 2227730452; 2361852424;
   2428436474; 2756734187; 3204031479; 3329325298].

Definition initial_state : list Z :=
  [1779033703; 3144134277; 1013904242; 2773480762;
   1359893119; 2600822924; 528734635; 1541459225].

(** Padding: a [0x80] byte, zero bytes up to 56 modulo 64, then the bit
    length of the message on eight big-endian bytes. *)
Definition be_bytes (width : nat) (x : Z) : list Z :=
  map (fun i => Z.land (Z.shiftr x (8 * Z.of_nat i)) 255) (rev (seq 0 width)).

Definition pad (msg : list Z) : list Z :=
  let len := Z.of_nat (length msg) in
  msg ++ [128] ++ repeat 0 (Z.to_nat ((119 - len mod 64) mod 64))
      ++ be_bytes 8 (8 * len).

Fixpoint be_words (bs : list Z) : list Z :=
  match bs with
  | a :: b :: c :: d :: rest =>
      Z.lor (Z.lor (Z.shiftl a 24) (Z.shiftl b 16)) (Z.lor (Z.shiftl c 8) d)
      :: be_words rest
  | _ => []
  end.

(** Message schedule, kept most recent word first. *)
Definition next_word (rw : list Z) : Z :=
  add32 (add32 (ssig1 (nth 1 rw 0)) (nth 6 rw 0))
        (add32 (ssig0 (nth 14 rw 0)) (nth 15 rw 0)).

Fixpoint expand (k : nat) (rw : list Z) : list Z :=
  match k with
  | O => rw
  | S k' => expand k' (next_word rw :: rw)
  end.

Definition schedule (block : list Z) : list Z := rev (expand 48 (rev block)).

Record regs := Regs { ra : Z; rb : Z; rc : Z; rd : Z;
                      re : Z; rf : Z; rg : Z; rh : Z }.

Definition round (s : regs) (kw : Z * Z) : regs :=
  let t1 := add32 (add32 (add32 (rh s) (bsig1 (re s)))
                         (add32 (Ch (re s) (rf s) (rg s)) (fst kw)))
                  (snd kw) in
  let t2 := add32 (bsig0 (ra s)) (Maj (ra s) (rb s) (rc s)) in
  Regs (add32 t1 t2) (ra s) (rb s) (rc s) (add32 (rd s) t1) (re s) (rf s) (rg s).

Definition regs_of (h : list Z) : regs :=
  Regs (nth 0 h 0) (nth 1 h 0) (nth 2 h 0) (nth 3 h 0)
       (nth 4 h 0) (nth 5 h 0) (nth 6 h 0) (nth 7 h 0).

Definition list_of (s : regs) : list Z :=
  [ra s; rb s; rc s; rd s; re s; rf s; rg s; rh s].

Definition compress (h block : list Z) : list Z :=
  let s := fold_left round (combine round_constants (schedule block)) (regs_of h) in
  map (fun p => add32 (fst p) (snd p)) (combine h (list_of s)).

Fixpoint absorb (n : nat) (h ws : list Z) : list Z :=
  match n with
  | O => h
  | S n' => absorb n' (compress h (firstn 16 ws)) (skipn 16 ws)
  end.

Definition sha256 (msg : list Z) : list Z :=
  let ws := be_words (pad msg) in
  flat_map (be_bytes 4) (absorb (length ws / 16) initial_state ws).

(** RFC 2104 with a 64-byte block. *)
Definition hmac (key msg : list Z) : list Z :=
  let k := if (64 <? length key)%nat then sha256 key else key in
  let k0 := k ++ repeat 0 (64 - length k) in
  sha256 (map (Z.lxor 92) k0 ++ sha256 (map (Z.lxor 54) k0 ++ msg)).

End SHA256.

(** ** Text and bytes

    A string is held as the sequence of its UTF-8 bytes, which is what
    [update] hashes. *)

Definition bytes_of_string (s : string) : list Z :=
  map (fun c => Z.of_N (N_of_ascii c)) (list_ascii_of_string s).

Definition hex_digit (n : Z) : ascii :=
  ascii_of_N (Z.to_N (if n <? 10 then 48 + n else 87 + n)).

(** [buf.toString('hex')] and [digest('hex')]: two lower-case digits a byte. *)
Fixpoint hex_of_bytes (bs : list Z) : string :=
  match bs with
  | [] => EmptyString
  | b :: rest =>
      String (hex_digit (Z.shiftr b 4))
             (String (hex_digit (Z.land b 15)) (hex_of_bytes rest))
  end.

(** [crypto.createHmac('sha256', "secret").update(data).digest('hex')] for a
    string [data]. *)
Definition hmac_hex (data : string) : string :=
  hex_of_bytes (SHA256.hmac (bytes_of_string "secret") (bytes_of_string data)).

Arguments hmac_hex : simpl never.

(** ** JavaScript values and results

    The values that reach [+], [update] and [startsWith] in the engine:
    [undefined], the number [NaN] (the sum of two [undefined]), strings, and
    arrays of [Transaction] objects.  The fields of a transaction are
    whatever the caller passed: a number or a string. *)

Inductive scalar : Type :=
| Num (n : Z)
| Str (s : string).

Record Transaction : Type := mkTransaction {
  amount : scalar;
  sender : scalar;
  recipient : scalar;
  tx_id : string
}.

Inductive value : Type :=
| VUndefined
| VNaN
| VString (s : string)
| VArray (ts : list Transaction).

Inductive exn : Type :=
| TypeError
| RangeError.

(** A call returns, throws, or is still running when the random draws it
    was given are used up. *)
Inductive result (A : Type) : Type :=
| Returns (a : A)
| Throws (e : exn)
| Running.

Arguments Returns {A} a.
Arguments Throws {A} e.
Arguments Running {A}.

Definition bind {A B : Type} (c : result A) (k : A -> result B) : result B :=
  match c with
  | Returns a => k a
  | Throws e => Throws e
  | Running => Running
  end.

Notation "x <- c ;; k" := (bind c (fun x => k))
  (at level 61, c at next level, right associativity).

(** [ToString]: an array is its elements joined by commas, and an object
    without a [toString] of its own prints as [[object Object]]. *)
Definition toString (v : value) : string :=
  match v with
  | VUndefined => "undefined"
  | VNaN => "NaN"
  | VString s => s
  | VArray ts => String.concat "," (map (fun _ : Transaction => "[object Object]"%string) ts)
  end.

(** [ToPrimitive] turns an array into its string; the other values are
    primitive already. *)
Definition to_string_primitive (v : value) : bool :=
  match v with
  | VString _ | VArray _ => true
  | VUndefined | VNaN => false
  end.

(** The operator [+]: concatenation as soon as one operand is a string,
    otherwise the numeric sum, which is [NaN] for [undefined] and [NaN]. *)
Definition plus (a b : value) : value :=
  if to_string_primitive a || to_string_primitive b
  then VString (toString a ++ toString b)
  else VNaN.

(** [crypto.createHmac('sha256', "secret").update(data).digest('hex')]:
    [update] throws a [TypeError] when [data] is neither a string nor a
    buffer. *)
Definition hmac_digest (data : value) : result string :=
  match data with
  | VString s => Returns (hmac_hex s)
  | VUndefined | VNaN | VArray _ => Throws TypeError
  end.

(** [s.startsWith(v)]. *)
Definition startsWith (s : string) (v : value) : bool :=
  String.prefix (toString v) s.

(** [array[i]]: [undefined] out of range. *)
Definition get (arr : list value) (i : nat) : value := nth i arr VUndefined.

(** [s.split('-')] for a one-character separator. *)
Fixpoint split (sep : ascii) (s : string) : list string :=
  match s with
  | EmptyString => [EmptyString]
  | String c rest =>
      if Ascii.eqb c sep then EmptyString :: split sep rest
      else match split sep rest with
           | piece :: pieces => String c piece :: pieces
           | [] => [String c EmptyString]
           end
  end.

(** [arr.join()]: the default separator is a comma. *)
Definition join (pieces : list string) : string := String.concat "," pieces.

(** ** Block and Transaction *)

Record Block : Type := mkBlock {
  index : nat;
  timestamp : Z;
  transactions : list Transaction;
  prevHash : string;
  hash : string;
  nonce : string;
  merkelRoot : value
}.

(** [new Block(index, transactions, prevHash, nonce, hash, merkelRoot)];
    [now] is the reading of [Date.now()]. *)
Definition new_Block (now : Z) (index0 : nat) (transactions0 : list Transaction)
    (prevHash0 nonce0 hash0 : string) (merkelRoot0 : value) : Block :=
  {| index := index0;
     timestamp := now / 1000;
     transactions := transactions0;
     prevHash := prevHash0;
     hash := hash0;
     nonce := nonce0;
     merkelRoot := merkelRoot0 |}.

(** [new Transaction(amount, sender, recipient)]; [uuid] is the string the
    UUID generator returned. *)
Definition new_Transaction (amount0 sender0 recipient0 : scalar) (uuid : string)
    : Transaction :=
  {| amount := amount0;
     sender := sender0;
     recipient := recipient0;
     tx_id := join (split "-" uuid) |}.

(** [t.hash]: no [Transaction] has such a property. *)
Definition tx_hash (t : Transaction) : value := VUndefined.

(** ** Blockchain *)

Record Blockchain : Type := mkBlockchain {
  chain : list Block;
  pendingTransactions : list Transaction;
  difficulty : value
}.

(** [this.merkelRoot] read on the [Blockchain] object: no method assigns
    this property. *)
Definition Blockchain_merkelRoot (bc : Blockchain) : value := VUndefined.

Definition createTransaction (bc : Blockchain)
    (amount0 sender0 recipient0 : scalar) (uuid : string) : Blockchain :=
  {| chain := chain bc;
     pendingTransactions :=
       pendingTransactions bc ++ [new_Transaction amount0 sender0 recipient0 uuid];
     difficulty := difficulty bc |}.

(** [var encrypt = prevHash + merkelRoot + nonce]. *)
Definition encrypt (prevHash0 : string) (merkelRoot0 : value) (nonce0 : string)
    : value :=
  plus (plus (VString prevHash0) merkelRoot0) (VString nonce0).

Definition getHash (prevHash0 : string) (merkelRoot0 : value) (nonce0 : string)
    : result string :=
  hmac_digest (encrypt prevHash0 merkelRoot0 nonce0).

(** The [for] loop of [constructMerkleTree] over the level [level]
    ([merkelRoot[0]]), from [index] on, with [temp] built so far.  [fuel]
    bounds the number of turns; the length of the level is enough. *)
Fixpoint level_loop (fuel : nat) (level : list value) (index : nat)
    (temp : list value) : result (list value) :=
  if (index <? length level)%nat then
    match fuel with
    | O => Running
    | S fuel' =>
        h <- (if (index <? length level - 1)%nat && (index mod 2 =? 0)%nat
              then hmac_digest (plus (get level index) (get level (index + 1)))
              else hmac_digest (get level index)) ;;
        level_loop fuel' level (index + 2) (temp ++ [VString h])
    end
  else Returns temp.

(** The [while] loop; only [merkelRoot[0]], the level on top, is ever read,
    and it is what the model keeps. *)
Fixpoint tree_loop (fuel : nat) (top : list value) : result value :=
  if (1 <? length top)%nat then
    match fuel with
    | O => Running
    | S fuel' =>
        temp <- level_loop (length top) top 0 [] ;;
        tree_loop fuel' temp
    end
  else Returns (get top 0).

Definition constructMerkleTree (transactionList : list Transaction)
    : result value :=
  tree_loop (length transactionList) (map tx_hash transactionList).

(** [this.chain.length !== 0 ? this.chain[this.chain.length - 1].hash : '0'] *)
Definition tip_hash (blocks : list Block) : string :=
  match blocks with
  | [] => "0"
  | b :: _ => hash (last blocks b)
  end.

(** [addBlock] assigns to [this] only after the two calls that can throw:
    a call that does not return leaves the object as it was.  The block
    keeps the array that was the pool and the pool becomes a new, empty
    array, so that later [push]es into the pool do not reach the block. *)
Definition addBlock (bc : Blockchain) (nonce0 : string) (now : Z)
    : result Blockchain :=
  let index0 := length (chain bc) in
  let prevHash0 := tip_hash (chain bc) in
  merkelRoot0 <- constructMerkleTree (pendingTransactions bc) ;;
  hash0 <- getHash prevHash0 merkelRoot0 nonce0 ;;
  let block := new_Block now index0 (pendingTransactions bc)
                         prevHash0 nonce0 hash0 merkelRoot0 in
  Returns {| chain := chain bc ++ [block];
             pendingTransactions := [];
             difficulty := difficulty bc |}.

(** [crypto.randomBytes(2).toString('hex')] for the two bytes drawn. *)
Definition nonce_of_draw (d : byte * byte) : string :=
  hex_of_bytes [Z.of_N (Byte.to_N (fst d)); Z.of_N (Byte.to_N (snd d))].

(** [proofOfWork] retries by calling itself, [return this.proofOfWork()],
    and every retry is one more activation on the call stack.  [stack] is
    the number of activations of [proofOfWork] the call stack has room
    for when the search starts, a fact of the engine that runs the code:
    the activation for which there is no room left ends in the
    [RangeError] of the engine (maximum call stack size exceeded), which
    nothing catches.  [draws] are the successive readings of
    [crypto.randomBytes(2)], one for each activation. *)
Fixpoint proofOfWork (bc : Blockchain) (stack : nat)
    (draws : list (byte * byte)) : result string :=
  match stack with
  | O => Throws RangeError
  | S stack' =>
      match draws with
      | [] => Running
      | d :: later =>
          let prevHash0 := tip_hash (chain bc) in
          let nonce0 := nonce_of_draw d in
          hash0 <- getHash prevHash0 (Blockchain_merkelRoot bc) nonce0 ;;
          if startsWith hash0 (difficulty bc) then Returns nonce0
          else proofOfWork bc stack' later
      end
  end.

Definition mine (bc : Blockchain) (stack : nat) (draws : list (byte * byte))
    (now : Z) : result Blockchain :=
  let tx_id_list := map tx_id (pendingTransactions bc) in
  nonce0 <- proofOfWork bc stack draws ;;
  addBlock bc nonce0 now.

(** [new Blockchain()]: [difficulty] is assigned after the genesis block
    has been added. *)
Definition new_Blockchain (now : Z) : result Blockchain :=
  bc <- addBlock {| chain := []; pendingTransactions := [];
                    difficulty := VUndefined |} "0" now ;;
  Returns {| chain := chain bc;
             pendingTransactions := pendingTransactions bc;
             difficulty := VString "000" |}.

(** The block and the object that [new Blockchain()] builds (see
    [new_Blockchain_returns]). *)
Definition genesis (now : Z) : Block :=
  new_Block now 0 [] "0" "0" (hmac_hex "0undefined0") VUndefined.

Definition fresh (now : Z) : Blockchain :=
  {| chain := [genesis now];
     pendingTransactions := [];
     difficulty := VString "000" |}.

(** [this.chain[i]] where a property of the element is read next: a
    [TypeError] out of range. *)
Definition block_at (blocks : list Block) (i : nat) : result Block :=
  match nth_error blocks i with
  | Some b => Returns b
  | None => Throws TypeError
  end.

(** One turn of the loop of [chainIsValid]: [Returns false] when one of its
    three tests returns [false], [Returns true] when the loop goes on. *)
Definition chainIsValid_turn (blocks : list Block) (i : nat) : result bool :=
  b <- block_at blocks i ;;
  let tx_id_list := map tx_id (transactions b) in
  bad_genesis <-
    (if (i =? 0)%nat
     then h <- getHash "0" (VArray []) "0" ;; Returns (negb (String.eqb (hash b) h))
     else Returns false) ;;
  if bad_genesis then Returns false else
  bad_hash <-
    (if (0 <? i)%nat
     then p <- block_at blocks (i - 1) ;;
          h <- getHash (hash p) (VArray (transactions b)) (nonce b) ;;
          Returns (negb (String.eqb (hash b) h))
     else Returns false) ;;
  if bad_hash then Returns false else
  bad_link <-
    (if (0 <? i)%nat
     then p <- block_at blocks (i - 1) ;;
          Returns (negb (String.eqb (prevHash b) (hash p)))
     else Returns false) ;;
  if bad_link then Returns false else Returns true.

(** The loop from [i] on, with [turns] turns left ([chain.length - i]). *)
Fixpoint chainIsValid_from (turns : nat) (blocks : list Block) (i : nat)
    : result bool :=
  match turns with
  | O => Returns true
  | S turns' =>
      ok <- chainIsValid_turn blocks i ;;
      if ok then chainIsValid_from turns' blocks (i + 1) else Returns false
  end.

Definition chainIsValid (bc : Blockchain) : result bool :=
  chainIsValid_from (length (chain bc)) (chain bc) 0.

(** ** Sequences of calls *)

Inductive call : Type :=
| CreateTransaction (amount0 sender0 recipient0 : scalar) (uuid : string)
| Mine (stack : nat) (draws : list (byte * byte)) (now : Z)
| ChainIsValid.

(** The object after one call that returns. *)
Definition call_step (c : call) (bc : Blockchain) : result Blockchain :=
  match c with
  | CreateTransaction a s r uuid => Returns (createTransaction bc a s r uuid)
  | Mine stack draws now => mine bc stack draws now
  | ChainIsValid => _ <- chainIsValid bc ;; Returns bc
  end.

(** A straight-line caller: it stops at the first call that does not
    return. *)
Fixpoint run (calls : list call) (bc : Blockchain) : result Blockchain :=
  match calls with
  | [] => Returns bc
  | c :: later => bc' <- call_step c bc ;; run later bc'
  end.

(** The transactions the calls construct, in order. *)
Fixpoint created (calls : list call) : list Transaction :=
  match calls with
  | [] => []
  | CreateTransaction a s r uuid :: later =>
      new_Transaction a s r uuid :: created later
  | _ :: later => created later
  end.

Inductive reachable : Blockchain -> Prop :=
| reachable_new : forall now bc,
    new_Blockchain now = Returns bc -> reachable bc
| reachable_call : forall bc c bc',
    reachable bc -> call_step c bc = Returns bc' -> reachable bc'.

(** Every block but the first names the hash of the block before it. *)
Definition linked (blocks : list Block) : Prop :=
  forall i b p, (0 < i)%nat ->
    nth_error blocks i = Some b -> nth_error blocks (i - 1) = Some p ->
    prevHash b = hash p.

(** The pairing of one level as the specification words it: consecutive
    digests are hashed two by two, left to right; a last digest without a
    partner is hashed alone. *)
Fixpoint pair_up (digests : list string) : list string :=
  match digests with
  | [] => []
  | [d] => [hmac_hex d]
  | l :: r :: rest => hmac_hex (l ++ r) :: pair_up rest
  end.


(** ** Writes from outside the engine

    Nothing in JavaScript keeps a caller from assigning to a field of a
    block that is already in the chain. *)

Definition set_hash (h : string) (b : Block) : Block :=
  {| index := index b; timestamp := timestamp b;
     transactions := transactions b; prevHash := prevHash b;
     hash := h; nonce := nonce b; merkelRoot := merkelRoot b |}.

Definition set_transactions (txs : list Transaction) (b : Block) : Block :=
  {| index := index b; timestamp := timestamp b;
     transactions := txs; prevHash := prevHash b;
     hash := hash b; nonce := nonce b; merkelRoot := merkelRoot b |}.

Definition set_amount (a : scalar) (t : Transaction) : Transaction :=
  {| amount := a; sender := sender t; recipient := recipient t;
     tx_id := tx_id t |}.

Fixpoint update_at {A : Type} (i : nat) (f : A -> A) (l : list A) : list A :=
  match l, i with
  | [], _ => []
  | x :: rest, O => f x :: rest
  | x :: rest, S j => x :: update_at j f rest
  end.

(** [bc.chain[i] = f(bc.chain[i])], field by field. *)
Definition mutate_block (i : nat) (f : Block -> Block) (bc : Blockchain)
    : Blockchain :=
  {| chain := update_at i f (chain bc);
     pendingTransactions := pendingTransactions bc;
     difficulty := difficulty bc |}.

(** What [chainIsValid] reads of a block. *)
Definition validated_part (b : Block) : string * string * string * nat :=
  (hash b, prevHash b, nonce b, length (transactions b)).

(** A block whose hash is the seal of its own fields. *)
Definition sealed (b : Block) : Prop :=
  getHash (prevHash b) (merkelRoot b) (nonce b) = Returns (hash b).

(** ** The driver and the script at the end of the file

    [simulateChain] reads the UUID generator, [Math.random] and, through
    [mine], the random bytes, the clock and the room on the call stack.  Floating point is not
    modelled: the two integers the driver computes from [Math.random()]
    (the number of transactions of a round, which is the only place where
    [numTxs] enters, and the third argument of [createTransaction]) are
    read from the environment as integers. *)

(** [s.substr(start, len)]. *)
Definition substr (start len : nat) (s : string) : string :=
  String.substring start len s.

(** What one turn of the inner loop reads: the two UUIDs cut to five
    characters, the integer [Math.floor(Math.random() * Math.floor(1000))]
    and the UUID that [new Transaction] draws. *)
Record tx_readings : Type := mkTxReadings {
  sender_uuid : string;
  receiver_uuid : string;
  amount_drawn : Z;
  id_uuid : string
}.

(** What one turn of the outer loop reads; the length of [drawn] is
    [numTxsRand]. *)
Record round_readings : Type := mkRoundReadings {
  drawn : list tx_readings;
  stack_room : nat;
  nonce_draws : list (byte * byte);
  mined_at : Z
}.

(** The inner loop: [createTransaction(sender, receiver, <number>)], the
    arguments in this order. *)
Fixpoint simulateChain_inner (blockchain : Blockchain) (txs : list tx_readings)
    : Blockchain :=
  match txs with
  | [] => blockchain
  | t :: later =>
      let sender0 := substr 0 5 (sender_uuid t) in
      let receiver0 := substr 0 5 (receiver_uuid t) in
      simulateChain_inner
        (createTransaction blockchain (Str sender0) (Str receiver0)
                           (Num (amount_drawn t)) (id_uuid t))
        later
  end.

(** The outer loop from turn [i] on, with [turns] turns left; [env i] is
    what turn [i] reads. *)
Fixpoint simulateChain_from (env : nat -> round_readings) (i turns : nat)
    (blockchain : Blockchain) : result Blockchain :=
  match turns with
  | O => Returns blockchain
  | S turns' =>
      let r := env i in
      bc' <- mine (simulateChain_inner blockchain (drawn r))
                  (stack_room r) (nonce_draws r) (mined_at r) ;;
      simulateChain_from env (S i) turns' bc'
  end.

Definition simulateChain (env : nat -> round_readings)
    (blockchain : Blockchain) (numBlocks : nat) : result Blockchain :=
  simulateChain_from env 0 numBlocks blockchain.

(** The statements at the end of the file: the value that the last
    [console.log] prints. *)
Definition script (now : Z) (env : nat -> round_readings) : result bool :=
  BChain <- new_Blockchain now ;;
  BChain' <- simulateChain env BChain 3 ;;
  chainIsValid BChain'.

(** ** Reference definitions for the further properties *)

(** The draws that end the nonce search. *)
Definition qualifies (bc : Blockchain) (d : byte * byte) : bool :=
  startsWith
    (hmac_hex ((tip_hash (chain bc) ++ "undefined") ++ nonce_of_draw d))
    (difficulty bc).

(** The verdict of the validator, by recursion on the chain. *)
Fixpoint links_accepted (p : Block) (later : list Block) : bool :=
  match later with
  | [] => true
  | b :: rest =>
      String.eqb (hash b)
        (hmac_hex ((hash p ++ toString (VArray (transactions b))) ++ nonce b))
      && String.eqb (prevHash b) (hash p)
      && links_accepted b rest
  end.

Definition accepted (blocks : list Block) : bool :=
  match blocks with
  | [] => true
  | g :: later => String.eqb (hash g) (hmac_hex "00") && links_accepted g later
  end.

(** A string with every hyphen turned into a comma. *)
Fixpoint hyphens_to_commas (s : string) : string :=
  match s with
  | EmptyString => EmptyString
  | String c rest =>
      String (if Ascii.eqb c "-" then ","%char else c) (hyphens_to_commas rest)
  end.

(** The characters [0-9a-f]. *)
Definition is_hex_digit (c : ascii) : bool :=
  let n := Z.of_N (N_of_ascii c) in
  ((48 <=? n) && (n <=? 57)) || ((97 <=? n) && (n <=? 102)).

Fixpoint all_chars (p : ascii -> bool) (s : string) : bool :=
  match s with
  | EmptyString => true
  | String c rest => p c && all_chars p rest
  end.

(** The number of [mine()] calls of a sequence. *)
Fixpoint mines (calls : list call) : nat :=
  match calls with
  | [] => O
  | Mine _ _ _ :: later => S (mines later)
  | _ :: later => mines later
  end.

(** The transaction one turn of the inner loop of the driver creates. *)
Definition driver_transaction (t : tx_readings) : Transaction :=
  new_Transaction (Str (substr 0 5 (sender_uuid t)))
                  (Str (substr 0 5 (receiver_uuid t)))
                  (Num (amount_drawn t)) (id_uuid t).

(** The calls of one turn of the outer loop of the driver. *)
Definition round_calls (r : round_readings) : list call :=
  map (fun t => CreateTransaction (Str (substr 0 5 (sender_uuid t)))
                                  (Str (substr 0 5 (receiver_uuid t)))
                                  (Num (amount_drawn t)) (id_uuid t))
      (drawn r)
  ++ [Mine (stack_room r) (nonce_draws r) (mined_at r)].

(** Readings for a run of the driver that returns: one transaction in the
    first turn, none later, and in each turn a draw that qualifies. *)
Definition quiet_readings (k : nat) : round_readings :=
  match k with
  | O => mkRoundReadings
           [mkTxReadings "110ec58a-a0f2-4ac4-8393-c866d813b8d1"
                         "6ba7b810-9dad-41d1-80b4-00c04fd430c8" 250
                         "6ba7b811-9dad-41d1-80b4-00c04fd430c8"]
           100 [(x00, x00); (x0c, xe7)] 5000
  | S O => mkRoundReadings [] 100 [(x06, x94)] 6000
  | _ => mkRoundReadings [] 100 [(x01, x19)] 7000
  end.

(** Readings whose first turn creates two transactions. *)
Definition crowded_readings (k : nat) : round_readings :=
  mkRoundReadings
    [mkTxReadings "110ec58a-a0f2-4ac4-8393-c866d813b8d1"
                  "6ba7b810-9dad-41d1-80b4-00c04fd430c8" 250
                  "6ba7b811-9dad-41d1-80b4-00c04fd430c8";
     mkTxReadings "6ba7b812-9dad-41d1-80b4-00c04fd430c8"
                  "6ba7b814-9dad-41d1-80b4-00c04fd430c8" 999
                  "6ba7b815-9dad-41d1-80b4-00c04fd430c8"]
    100 [(x0c, xe7)] 5000.

(** The same readings with room on the call stack for one activation of
    the search only, and the qualifying draw in second place. *)
Definition starved_readings (k : nat) : round_readings :=
  mkRoundReadings (drawn (crowded_readings k)) 1
                  [(x00, x00); (x0c, xe7)] 5000.

(** * Properties *)

Lemma round_constants_spec :
  SHA256.round_constants = map SHA256.frac_cbrt32 SHA256.primes64.
Proof. vm_compute. reflexivity. Qed.

Lemma initial_state_spec :
  SHA256.initial_state = map SHA256.frac_sqrt32 (firstn 8 SHA256.primes64).
Proof. vm_compute. reflexivity. Qed.

Example sha256_abc :
  hex_of_bytes (SHA256.sha256 (bytes_of_string "abc"))
  = "ba7816bf8f01cfea414140de5dae2223b00361a396177a9cb410ff61f20015ad"%string.
Proof. vm_compute. reflexivity. Qed.

Example sha256_two_blocks :
  hex_of_bytes (SHA256.sha256 (repeat 97 56))
  = "b35439a4ac6f0948b6d6f9e3c6af0f5f590ce20f1bde7090ef7970686ec6738a"%string.
Proof. vm_compute. reflexivity. Qed.

(** RFC 4231, test case 2. *)
Example hmac_rfc4231_2 :
  hex_of_bytes (SHA256.hmac (bytes_of_string "Jefe")
                            (bytes_of_string "what do ya want for nothing?"))
  = "5bdcc146bf60754e6a042426089575c75a003f089d2739839dec58b964ec3843"%string.
Proof. vm_compute. reflexivity. Qed.

Example hmac_long_key :
  hex_of_bytes (SHA256.hmac (repeat 107 100) (bytes_of_string "long key"))
  = "5903eedefe0bba3f15b658715e41d71f1848739bddf19e497e968df5723dcd56"%string.
Proof. vm_compute. reflexivity. Qed.

Example hmac_hex_genesis :
  hmac_hex "0undefined0"
  = "1b6812a38b4e69fb12d3b97ac159ee0f705785ebf79fd25393be06cc9a04a351"%string.
Proof. vm_compute. reflexivity. Qed.

(** ** Results *)

Lemma bind_returns {A B : Type} (c : result A) (k : A -> result B) (b : B) :
  bind c k = Returns b -> exists a, c = Returns a /\ k a = Returns b.
Proof.
  destruct c as [a | e | ]; simpl; intros H; try discriminate H.
  exists a; split; [reflexivity | exact H].
Qed.

Ltac bind_inv H :=
  let a := fresh "a" in
  let E := fresh "E" in
  apply bind_returns in H; destruct H as [a [E H]].

(** ** Sealing *)

Lemma encrypt_string (p : string) (m : value) (n : string) :
  encrypt p m n = VString ((p ++ toString m) ++ n).
Proof. reflexivity. Qed.

Lemma getHash_returns (p : string) (m : value) (n : string) :
  getHash p m n = Returns (hmac_hex ((p ++ toString m) ++ n)).
Proof. reflexivity. Qed.

(** ** The merkle construction on transactions *)

Lemma leaves_undefined (txs : list Transaction) :
  map tx_hash txs = repeat VUndefined (length txs).
Proof.
  induction txs as [| t txs IH]; simpl; [reflexivity | now rewrite IH].
Qed.

Lemma constructMerkleTree_cases (txs : list Transaction) :
  constructMerkleTree txs =
  if (length txs <=? 1)%nat then Returns VUndefined else Throws TypeError.
Proof.
  destruct txs as [| t1 [| t2 rest]]; reflexivity.
Qed.

Lemma constructMerkleTree_returns (txs : list Transaction) (m : value) :
  constructMerkleTree txs = Returns m -> m = VUndefined.
Proof.
  rewrite constructMerkleTree_cases.
  destruct (length txs <=? 1)%nat; intros H; [now inversion H | discriminate H].
Qed.

Lemma constructMerkleTree_finishes (txs : list Transaction) :
  constructMerkleTree txs <> Running.
Proof.
  rewrite constructMerkleTree_cases.
  destruct (length txs <=? 1)%nat; discriminate.
Qed.

(** ** Block assembly *)

Lemma addBlock_returns (bc bc' : Blockchain) (n : string) (now : Z) :
  addBlock bc n now = Returns bc' ->
  exists m h,
    constructMerkleTree (pendingTransactions bc) = Returns m /\
    getHash (tip_hash (chain bc)) m n = Returns h /\
    bc' = {| chain := chain bc ++
                      [new_Block now (length (chain bc)) (pendingTransactions bc)
                                 (tip_hash (chain bc)) n h m];
             pendingTransactions := [];
             difficulty := difficulty bc |}.
Proof.
  unfold addBlock; intros H.
  bind_inv H. bind_inv H.
  exists a, a0. repeat split; try assumption.
  now inversion H.
Qed.

Lemma proofOfWork_returns (bc : Blockchain) (stack : nat)
    (draws : list (byte * byte)) (n : string) :
  proofOfWork bc stack draws = Returns n ->
  exists h,
    getHash (tip_hash (chain bc)) (Blockchain_merkelRoot bc) n = Returns h /\
    startsWith h (difficulty bc) = true.
Proof.
  revert draws.
  induction stack as [| stack IH]; intros draws H; [discriminate H |].
  destruct draws as [| d later]; [discriminate H |].
  cbn [proofOfWork] in H. bind_inv H.
  destruct (startsWith a (difficulty bc)) eqn:Hit.
  - inversion H; subst n. exists a; split; assumption.
  - exact (IH _ H).
Qed.

(** The search goes on until a draw seals below the target, and returns
    the first such draw, when the call stack has room for the draws that
    come before it. *)
Lemma proofOfWork_finds (bc : Blockchain) (missed : list (byte * byte))
    (d : byte * byte) (later : list (byte * byte)) (stack : nat) :
  (length missed < stack)%nat ->
  (forall d', In d' missed ->
     startsWith (hmac_hex ((tip_hash (chain bc) ++ "undefined") ++ nonce_of_draw d'))
                (difficulty bc) = false) ->
  startsWith (hmac_hex ((tip_hash (chain bc) ++ "undefined") ++ nonce_of_draw d))
             (difficulty bc) = true ->
  proofOfWork bc stack (missed ++ d :: later) = Returns (nonce_of_draw d).
Proof.
  revert stack.
  induction missed as [| d0 missed IH]; intros stack Hroom Hmiss Hhit;
    (destruct stack as [| stack]; [cbn [length] in Hroom; lia |]).
  - cbn [app proofOfWork]. rewrite getHash_returns.
    unfold Blockchain_merkelRoot; cbn [toString bind].
    now rewrite Hhit.
  - cbn [app proofOfWork]. rewrite getHash_returns.
    unfold Blockchain_merkelRoot; cbn [toString bind].
    rewrite (Hmiss d0 (or_introl eq_refl)).
    apply IH; [cbn [length] in Hroom; lia | | exact Hhit].
    intros d' Hd'. apply Hmiss. now right.
Qed.

(** The search reads the chain and the difficulty of the object, and
    nothing of its pool. *)
Lemma proofOfWork_reads (bc bc' : Blockchain) (stack : nat)
    (draws : list (byte * byte)) :
  chain bc = chain bc' -> difficulty bc = difficulty bc' ->
  proofOfWork bc stack draws = proofOfWork bc' stack draws.
Proof.
  intros Hc Hd. revert draws.
  induction stack as [| stack IH]; intros draws; [reflexivity |].
  destruct draws as [| d later]; [reflexivity |].
  cbn [proofOfWork]. rewrite !getHash_returns. cbn [bind].
  unfold Blockchain_merkelRoot. rewrite Hc, Hd.
  destruct (startsWith _ (difficulty bc')); [reflexivity | apply IH].
Qed.

Lemma mine_returns (bc bc' : Blockchain) (stack : nat)
    (draws : list (byte * byte)) (now : Z) :
  mine bc stack draws now = Returns bc' ->
  exists n h,
    proofOfWork bc stack draws = Returns n /\
    constructMerkleTree (pendingTransactions bc) = Returns VUndefined /\
    getHash (tip_hash (chain bc)) VUndefined n = Returns h /\
    startsWith h (difficulty bc) = true /\
    bc' = {| chain := chain bc ++
                      [new_Block now (length (chain bc)) (pendingTransactions bc)
                                 (tip_hash (chain bc)) n h VUndefined];
             pendingTransactions := [];
             difficulty := difficulty bc |}.
Proof.
  unfold mine; intros H.
  bind_inv H.
  destruct (addBlock_returns _ _ _ _ H) as [m [h [Hm [Hh Hbc]]]].
  pose proof (constructMerkleTree_returns _ _ Hm) as ->.
  destruct (proofOfWork_returns _ _ _ _ E) as [h' [Hh' Hstart]].
  unfold Blockchain_merkelRoot in Hh'.
  rewrite Hh in Hh'. inversion Hh'; subst h'.
  exists a, h. repeat split; assumption.
Qed.

(** With two transactions pending or more, a search that returns is
    followed by the [TypeError] of the merkle construction. *)
Lemma mine_throws (bc : Blockchain) (stack : nat) (draws : list (byte * byte))
    (now : Z) (n : string) :
  proofOfWork bc stack draws = Returns n ->
  (1 < length (pendingTransactions bc))%nat ->
  mine bc stack draws now = Throws TypeError.
Proof.
  intros Hn Hlen. unfold mine. rewrite Hn. simpl.
  unfold addBlock. rewrite constructMerkleTree_cases.
  destruct (Nat.leb_spec (length (pendingTransactions bc)) 1); [lia | reflexivity].
Qed.

Lemma new_Blockchain_returns (now : Z) :
  new_Blockchain now = Returns (fresh now).
Proof. reflexivity. Qed.

(** ** Linkage *)

Lemma tip_hash_snoc (blocks : list Block) (b : Block) :
  tip_hash (blocks ++ [b]) = hash b.
Proof.
  unfold tip_hash.
  destruct (blocks ++ [b]) as [| b0 rest] eqn:E.
  - now destruct blocks.
  - rewrite <- E. now rewrite last_last.
Qed.

Lemma nth_error_tip (blocks : list Block) (p : Block) :
  nth_error blocks (length blocks - 1) = Some p -> tip_hash blocks = hash p.
Proof.
  destruct blocks as [| b0 rest] using rev_ind; [discriminate |].
  rewrite length_app, Nat.add_sub. simpl.
  rewrite nth_error_app2, Nat.sub_diag by lia. simpl.
  intros H; inversion H; subst. apply tip_hash_snoc.
Qed.

Lemma linked_snoc (blocks : list Block) (b : Block) :
  linked blocks -> prevHash b = tip_hash blocks -> linked (blocks ++ [b]).
Proof.
  intros Hl Hb i b' p Hi Hb' Hp.
  destruct (Nat.lt_ge_cases i (length blocks)) as [Hlt | Hge].
  - rewrite nth_error_app1 in Hb', Hp by lia. eapply Hl; eassumption.
  - rewrite nth_error_app2 in Hb' by lia.
    destruct (i - length blocks)%nat as [| k] eqn:Ek.
    + assert (i = length blocks) by lia; subst i.
      rewrite nth_error_app1 in Hp by lia.
      simpl in Hb'. inversion Hb'; subst b'.
      rewrite Hb. now apply nth_error_tip.
    + simpl in Hb'. now destruct k.
Qed.

Lemma linked_single (b : Block) : linked [b].
Proof.
  intros i b' p Hi Hb' _. destruct i as [| [| i]]; try lia; discriminate.
Qed.

Lemma call_step_chain (c : call) (bc bc' : Blockchain) :
  call_step c bc = Returns bc' ->
  chain bc' = chain bc \/
  exists b, chain bc' = chain bc ++ [b] /\ prevHash b = tip_hash (chain bc).
Proof.
  destruct c as [a s r uuid | stack draws now | ]; simpl; intros H.
  - inversion H; now left.
  - apply mine_returns in H.
    destruct H as [n [h [_ [_ [_ [_ ->]]]]]]. right.
    eexists; split; reflexivity.
  - bind_inv H. inversion H; now left.
Qed.

Lemma linked_preserved (c : call) (bc bc' : Blockchain) :
  linked (chain bc) -> call_step c bc = Returns bc' -> linked (chain bc').
Proof.
  intros Hl H.
  destruct (call_step_chain _ _ _ H) as [-> | [b [-> Hb]]];
    [assumption | now apply linked_snoc].
Qed.

Lemma reachable_linked (bc : Blockchain) : reachable bc -> linked (chain bc).
Proof.
  induction 1 as [now bc H | bc c bc' _ IH H].
  - rewrite new_Blockchain_returns in H. inversion H; subst bc.
    apply linked_single.
  - eapply linked_preserved; eassumption.
Qed.

(** ** Pairing one level *)

Lemma level_loop_unfold (fuel : nat) (level : list value) (index : nat)
    (temp : list value) :
  level_loop fuel level index temp =
  if (index <? length level)%nat then
    match fuel with
    | O => Running
    | S fuel' =>
        h <- (if (index <? length level - 1)%nat && (index mod 2 =? 0)%nat
              then hmac_digest (plus (get level index) (get level (index + 1)))
              else hmac_digest (get level index)) ;;
        level_loop fuel' level (index + 2) (temp ++ [VString h])
    end
  else Returns temp.
Proof. destruct fuel; reflexivity. Qed.

Lemma pair_ind (P : list string -> Prop) :
  P [] ->
  (forall d, P [d]) ->
  (forall l r rest, P rest -> P (l :: r :: rest)) ->
  forall ds, P ds.
Proof.
  intros H0 H1 H2 ds.
  enough (P ds /\ forall d, P (d :: ds)) as [H _] by exact H.
  induction ds as [| d ds [IH1 IH2]]; split; auto.
Qed.

Lemma get_app (pre post : list value) (k : nat) :
  get (pre ++ post) (length pre + k) = get post k.
Proof.
  unfold get. rewrite app_nth2 by lia. f_equal. lia.
Qed.

Lemma level_loop_pairs (post : list string) :
  forall (pre temp : list value) (fuel : nat),
    (length pre mod 2 = 0)%nat ->
    (length post <= fuel)%nat ->
    level_loop fuel (pre ++ map VString post) (length pre) temp
    = Returns (temp ++ map VString (pair_up post)).
Proof.
  induction post as [| d | l r rest IH] using pair_ind;
    intros pre temp fuel Heven Hfuel; rewrite level_loop_unfold;
    rewrite length_app, length_map.
  - simpl length. rewrite Nat.add_0_r, Nat.ltb_irrefl. simpl.
    now rewrite app_nil_r.
  - simpl length in *.
    destruct (Nat.ltb_spec (length pre) (length pre + 1)); [| lia].
    destruct fuel as [| fuel]; [lia |].
    destruct (Nat.ltb_spec (length pre) (length pre + 1 - 1)); [lia |].
    cbn [andb].
    rewrite <- (Nat.add_0_r (length pre)) at 1. rewrite get_app.
    cbn [map get nth hmac_digest bind].
    rewrite level_loop_unfold, length_app.
    simpl length.
    destruct (Nat.ltb_spec (length pre + 2) (length pre + 1)); [lia |].
    reflexivity.
  - simpl length in *.
    destruct (Nat.ltb_spec (length pre) (length pre + S (S (length rest)))); [| lia].
    destruct fuel as [| fuel]; [lia |].
    destruct (Nat.ltb_spec (length pre) (length pre + S (S (length rest)) - 1)); [| lia].
    rewrite Heven. cbn [andb Nat.eqb].
    rewrite <- (Nat.add_0_r (length pre)) at 1. rewrite !get_app.
    cbn [map get nth plus to_string_primitive orb toString hmac_digest bind].
    replace (pre ++ VString l :: VString r :: map VString rest)
      with ((pre ++ [VString l; VString r]) ++ map VString rest)
      by now rewrite <- app_assoc.
    replace (length pre + 2)%nat with (length (pre ++ [VString l; VString r]))
      by (rewrite length_app; reflexivity).
    rewrite IH.
    + now rewrite <- app_assoc.
    + rewrite length_app. simpl length.
      replace (length pre + 2)%nat with (length pre + 1 * 2)%nat by lia.
      now rewrite Nat.Div0.mod_add.
    + lia.
Qed.

Lemma pair_up_app (ds tail : list string) :
  (length ds mod 2 = 0)%nat -> pair_up (ds ++ tail) = pair_up ds ++ pair_up tail.
Proof.
  induction ds as [| d | l r rest IH] using pair_ind; intros Heven.
  - reflexivity.
  - discriminate Heven.
  - simpl. rewrite IH; [reflexivity |].
    simpl length in Heven.
    replace (S (S (length rest))) with (length rest + 1 * 2)%nat in Heven by lia.
    now rewrite Nat.Div0.mod_add in Heven.
Qed.

Lemma level_loop_digests (ds : list string) :
  level_loop (length ds) (map VString ds) 0 []
  = Returns (map VString (pair_up ds)).
Proof. exact (level_loop_pairs ds [] [] (length ds) eq_refl (le_n _)). Qed.

Lemma tree_loop_unfold (fuel : nat) (top : list value) :
  tree_loop fuel top =
  if (1 <? length top)%nat then
    match fuel with
    | O => Running
    | S fuel' =>
        temp <- level_loop (length top) top 0 [] ;;
        tree_loop fuel' temp
    end
  else Returns (get top 0).
Proof. destruct fuel; reflexivity. Qed.

(** One turn of the [while] loop on a level of digests. *)
Lemma tree_loop_digests (fuel : nat) (ds : list string) :
  (1 < length ds)%nat ->
  tree_loop (S fuel) (map VString ds) = tree_loop fuel (map VString (pair_up ds)).
Proof.
  intros Hlen. rewrite tree_loop_unfold, length_map.
  destruct (Nat.ltb_spec 1 (length ds)); [| lia].
  rewrite <- (length_map VString ds) at 1.
  rewrite length_map, level_loop_digests. reflexivity.
Qed.

Lemma pair_up_length (ds : list string) :
  (length (pair_up ds) <= length ds)%nat /\
  ((1 < length ds)%nat -> (length (pair_up ds) < length ds)%nat) /\
  (ds <> [] -> pair_up ds <> []).
Proof.
  induction ds as [| d | l r rest [IH1 [IH2 IH3]]] using pair_ind.
  - repeat split; simpl; try lia. congruence.
  - repeat split; simpl; try lia. discriminate.
  - repeat split; simpl; try lia. discriminate.
Qed.

(** On digests the construction ends, in at most as many turns as there
    are leaves, and returns a digest. *)
Lemma tree_loop_returns (fuel : nat) :
  forall ds : list string,
    (length ds <= fuel)%nat -> ds <> [] ->
    exists root, tree_loop fuel (map VString ds) = Returns (VString root).
Proof.
  induction fuel as [| fuel IH]; intros ds Hfuel Hne.
  - destruct ds; [congruence | simpl in Hfuel; lia].
  - destruct (Nat.ltb_spec 1 (length ds)) as [Hlen | Hlen].
    + rewrite (tree_loop_digests fuel ds Hlen).
      destruct (pair_up_length ds) as [_ [Hlt Hne']].
      apply IH; [specialize (Hlt Hlen); lia | now apply Hne'].
    + destruct ds as [| d [| d' rest]]; [congruence | | simpl in Hlen; lia].
      now exists d.
Qed.

(** C7. On three transactions the construction does not hash the first
    two leaves as a pair and carry the third up hashed alone.  The leaves
    are the [hash] properties of the transactions, which no [Transaction]
    has: the level is three times [undefined], the first pair is
    [undefined + undefined], that is [NaN], [update] refuses it with a
    [TypeError], and the construction throws before any node is built.
    Run on three digests, the same loop does what the claim says: the
    first two are hashed as a pair over their concatenation and the third
    is hashed alone. *)
Theorem odd_level_of_transactions_throws :
  forall t1 t2 t3 : Transaction,
    map tx_hash [t1; t2; t3] = [VUndefined; VUndefined; VUndefined] /\
    plus VUndefined VUndefined = VNaN /\
    hmac_digest VNaN = Throws TypeError /\
    level_loop 3 (map tx_hash [t1; t2; t3]) 0 [] = Throws TypeError /\
    constructMerkleTree [t1; t2; t3] = Throws TypeError /\
    (forall d1 d2 d3 : string,
       level_loop 3 [VString d1; VString d2; VString d3] 0 []
       = Returns [VString (hmac_hex (d1 ++ d2)); VString (hmac_hex d3)]).
Proof.
  intros t1 t2 t3.
  split; [reflexivity |]. split; [reflexivity |]. split; [reflexivity |].
  split; [reflexivity |]. split; [reflexivity |].
  intros d1 d2 d3. exact (level_loop_digests [d1; d2; d3]).
Qed.

(** ** The validator *)

Lemma chainIsValid_turn_genesis (blocks : list Block) (b : Block) :
  nth_error blocks 0 = Some b ->
  chainIsValid_turn blocks 0 = Returns (String.eqb (hash b) (hmac_hex "00")).
Proof.
  intros Hb. unfold chainIsValid_turn, block_at. rewrite Hb. simpl.
  now destruct (String.eqb (hash b) (hmac_hex "00")).
Qed.

Lemma chainIsValid_turn_later (blocks : list Block) (j : nat) (b p : Block) :
  nth_error blocks (S j) = Some b ->
  nth_error blocks j = Some p ->
  chainIsValid_turn blocks (S j) =
  Returns (String.eqb (hash b)
             (hmac_hex ((hash p ++ toString (VArray (transactions b))) ++ nonce b))
           && String.eqb (prevHash b) (hash p)).
Proof.
  intros Hb Hp. unfold chainIsValid_turn, block_at.
  rewrite Hb. cbn [bind Nat.eqb Nat.ltb Nat.leb].
  replace (S j - 1)%nat with j by lia. rewrite Hp. cbn [bind].
  rewrite getHash_returns. cbn [bind].
  destruct (String.eqb (hash b) _); cbn [negb andb]; [| reflexivity].
  now destruct (String.eqb (prevHash b) (hash p)).
Qed.

Lemma chainIsValid_turn_outside (blocks : list Block) (i : nat) :
  nth_error blocks i = None -> chainIsValid_turn blocks i = Throws TypeError.
Proof.
  intros Hb. unfold chainIsValid_turn, block_at. now rewrite Hb.
Qed.

Lemma toString_VArray_length (ts ts' : list Transaction) :
  length ts = length ts' -> toString (VArray ts) = toString (VArray ts').
Proof.
  intros Hlen. cbn [toString]. f_equal.
  revert ts' Hlen.
  induction ts as [| t ts IH]; intros [| t' ts'] Hlen; try discriminate Hlen.
  - reflexivity.
  - simpl. f_equal. apply IH. now inversion Hlen.
Qed.

(** The verdict depends on the stored hashes, previous hashes and nonces
    and on the number of transactions of each block, and on nothing else:
    not on [index], [timestamp] or [merkelRoot], nor on any field of a
    transaction. *)
Lemma chainIsValid_turn_reads (c1 c2 : list Block) (i : nat) :
  map validated_part c1 = map validated_part c2 ->
  chainIsValid_turn c1 i = chainIsValid_turn c2 i.
Proof.
  intros Heq.
  assert (Hnth : forall k, option_map validated_part (nth_error c1 k)
                           = option_map validated_part (nth_error c2 k)).
  { intros k. rewrite <- !nth_error_map. now rewrite Heq. }
  assert (Hsome : forall k b1, nth_error c1 k = Some b1 ->
            exists b2, nth_error c2 k = Some b2 /\
                       hash b1 = hash b2 /\ prevHash b1 = prevHash b2 /\
                       nonce b1 = nonce b2 /\
                       length (transactions b1) = length (transactions b2)).
  { intros k b1 H1. specialize (Hnth k). rewrite H1 in Hnth.
    destruct (nth_error c2 k) as [b2 |]; [| discriminate Hnth].
    exists b2. unfold validated_part in Hnth. simpl in Hnth.
    inversion Hnth. repeat split; assumption. }
  destruct (nth_error c1 i) as [b1 |] eqn:H1.
  - destruct (Hsome i b1 H1) as [b2 [H2 [Hh [Hp [Hn Hl]]]]].
    destruct i as [| j].
    + rewrite (chainIsValid_turn_genesis _ _ H1), (chainIsValid_turn_genesis _ _ H2).
      now rewrite Hh.
    + destruct (nth_error c1 j) as [p1 |] eqn:P1.
      * destruct (Hsome j p1 P1) as [p2 [P2 [Hph _]]].
        rewrite (chainIsValid_turn_later _ _ _ _ H1 P1),
                (chainIsValid_turn_later _ _ _ _ H2 P2).
        rewrite (toString_VArray_length _ _ Hl).
        now rewrite Hh, Hp, Hn, Hph.
      * exfalso.
        assert (S j < length c1)%nat by (apply nth_error_Some; congruence).
        apply nth_error_None in P1. lia.
  - specialize (Hnth i). rewrite H1 in Hnth.
    destruct (nth_error c2 i) as [b2 |] eqn:H2; [discriminate Hnth |].
    now rewrite !chainIsValid_turn_outside.
Qed.

Lemma chainIsValid_from_reads (c1 c2 : list Block) :
  map validated_part c1 = map validated_part c2 ->
  forall turns i, chainIsValid_from turns c1 i = chainIsValid_from turns c2 i.
Proof.
  intros Heq turns.
  induction turns as [| turns IH]; intros i; [reflexivity |].
  cbn [chainIsValid_from].
  rewrite (chainIsValid_turn_reads _ _ i Heq).
  destruct (chainIsValid_turn c2 i) as [[|] | e |]; cbn [bind]; auto.
Qed.

Lemma chainIsValid_reads (bc1 bc2 : Blockchain) :
  map validated_part (chain bc1) = map validated_part (chain bc2) ->
  chainIsValid bc1 = chainIsValid bc2.
Proof.
  intros Heq. unfold chainIsValid.
  replace (length (chain bc1)) with (length (chain bc2)).
  - now apply chainIsValid_from_reads.
  - rewrite <- (length_map validated_part (chain bc2)), <- Heq.
    apply length_map.
Qed.

Lemma update_at_map {A B : Type} (g : A -> B) (f : A -> A) (i : nat) (l : list A) :
  (forall x, g (f x) = g x) -> map g (update_at i f l) = map g l.
Proof.
  intros Hf. revert i.
  induction l as [| x rest IH]; intros [| j]; simpl; try reflexivity.
  - now rewrite Hf.
  - now rewrite IH.
Qed.

(** Changing the amount of a transaction of a block already in the chain
    never changes the verdict of [chainIsValid]. *)
Lemma chainIsValid_blind_to_amounts (bc : Blockchain) (i k : nat) (a : scalar) :
  chainIsValid
    (mutate_block i
       (fun b => set_transactions (update_at k (set_amount a) (transactions b)) b)
       bc)
  = chainIsValid bc.
Proof.
  apply chainIsValid_reads. cbn [mutate_block chain].
  apply update_at_map. intros b.
  unfold validated_part, set_transactions. cbn.
  f_equal.
  rewrite <- (length_map (fun _ : Transaction => tt)), update_at_map by reflexivity.
  apply length_map.
Qed.

(** The validator returns a verdict on every chain. *)
Lemma chainIsValid_from_total (blocks : list Block) :
  forall turns i, (i + turns <= length blocks)%nat ->
    exists v, chainIsValid_from turns blocks i = Returns v.
Proof.
  induction turns as [| turns IH]; intros i Hi; [now exists true |].
  cbn [chainIsValid_from].
  destruct (nth_error blocks i) as [b |] eqn:Hb;
    [| apply nth_error_None in Hb; lia].
  assert (Hturn : exists v, chainIsValid_turn blocks i = Returns v).
  { destruct i as [| j].
    - rewrite (chainIsValid_turn_genesis _ _ Hb). eauto.
    - destruct (nth_error blocks j) as [p |] eqn:Hp;
        [| apply nth_error_None in Hp; lia].
      rewrite (chainIsValid_turn_later _ _ _ _ Hb Hp). eauto. }
  destruct Hturn as [[|] ->]; cbn [bind].
  - apply IH. lia.
  - now exists false.
Qed.

Lemma chainIsValid_total (bc : Blockchain) :
  exists v, chainIsValid bc = Returns v.
Proof. apply chainIsValid_from_total. lia. Qed.

(** ** Reachable states *)

Lemma run_app (calls1 calls2 : list call) (bc : Blockchain) :
  run (calls1 ++ calls2) bc = (bc' <- run calls1 bc ;; run calls2 bc').
Proof.
  revert bc. induction calls1 as [| c calls1 IH]; intros bc; [reflexivity |].
  cbn [app run]. destruct (call_step c bc); cbn [bind]; auto.
Qed.

Lemma run_reachable (calls : list call) (bc bc' : Blockchain) :
  reachable bc -> run calls bc = Returns bc' -> reachable bc'.
Proof.
  revert bc. induction calls as [| c calls IH]; intros bc Hbc H.
  - inversion H; now subst.
  - cbn [run] in H. bind_inv H.
    eapply IH; [| exact H]. eapply reachable_call; eassumption.
Qed.

Lemma call_step_difficulty (c : call) (bc bc' : Blockchain) :
  call_step c bc = Returns bc' -> difficulty bc' = difficulty bc.
Proof.
  destruct c as [a s r uuid | stack draws now | ]; simpl; intros H.
  - now inversion H.
  - apply mine_returns in H.
    now destruct H as [n [h [_ [_ [_ [_ ->]]]]]].
  - bind_inv H. now inversion H.
Qed.

Lemma reachable_difficulty (bc : Blockchain) :
  reachable bc -> difficulty bc = VString "000".
Proof.
  induction 1 as [now bc H | bc c bc' _ IH H].
  - rewrite new_Blockchain_returns in H. now inversion H.
  - rewrite (call_step_difficulty _ _ _ H). exact IH.
Qed.

Lemma reachable_nonempty (bc : Blockchain) : reachable bc -> chain bc <> [].
Proof.
  induction 1 as [now bc H | bc c bc' _ IH H].
  - rewrite new_Blockchain_returns in H. now inversion H.
  - destruct (call_step_chain _ _ _ H) as [-> | [b [-> _]]]; [exact IH |].
    now destruct (chain bc).
Qed.

Lemma sealed_new_Block (now : Z) (i : nat) (txs : list Transaction)
    (p n h : string) (m : value) :
  getHash p m n = Returns h -> sealed (new_Block now i txs p n h m).
Proof. intros H. exact H. Qed.

(** Every block the engine appended is sealed over its own fields, and
    every block after the first meets the target. *)
Lemma reachable_sealed (bc : Blockchain) :
  reachable bc ->
  Forall sealed (chain bc) /\
  Forall (fun b => String.prefix "000" (hash b) = true) (tl (chain bc)).
Proof.
  intros Hr. induction Hr as [now bc H | bc c bc' Hr [IHs IHt] H].
  - rewrite new_Blockchain_returns in H. inversion H; subst bc.
    split; [| constructor].
    constructor; [| constructor].
    apply sealed_new_Block. reflexivity.
  - pose proof (reachable_difficulty _ Hr) as Hd.
    pose proof (reachable_nonempty _ Hr) as Hne.
    destruct c as [a s r uuid | stack draws now | ]; simpl in H.
    + inversion H; subst bc'. now split.
    + apply mine_returns in H.
      destruct H as [n [h [_ [_ [Hh [Hstart ->]]]]]]. cbn [chain].
      split.
      * apply Forall_app. split; [exact IHs |].
        constructor; [| constructor].
        apply sealed_new_Block. exact Hh.
      * destruct (chain bc) as [| g rest]; [contradiction |].
        cbn [app tl] in *. apply Forall_app. split; [exact IHt |].
        constructor; [| constructor].
        rewrite Hd in Hstart. exact Hstart.
    + bind_inv H. inversion H; subst bc'. now split.
Qed.

(** The blocks a sequence of calls appends hold, with what is left in the
    pool, what was in the pool before and what the calls created, in
    order. *)
Lemma run_blocks (calls : list call) :
  forall bc bc', run calls bc = Returns bc' ->
    exists later,
      chain bc' = chain bc ++ later /\
      concat (map transactions later) ++ pendingTransactions bc'
      = pendingTransactions bc ++ created calls.
Proof.
  induction calls as [| c calls IH]; intros bc bc' H.
  - inversion H; subst bc'. exists []. cbn. now rewrite !app_nil_r.
  - cbn [run] in H. bind_inv H.
    destruct (IH _ _ H) as [later [Hchain Hpool]].
    destruct c as [am s r uuid | stack draws now | ]; simpl in E.
    + inversion E; subst a. cbn [chain pendingTransactions createTransaction] in *.
      exists later. split; [exact Hchain |].
      rewrite Hpool. cbn [created]. now rewrite <- app_assoc.
    + apply mine_returns in E.
      destruct E as [n [h [_ [_ [_ [_ ->]]]]]].
      cbn [chain pendingTransactions] in *.
      eexists (_ :: later). split.
      * rewrite Hchain, <- app_assoc. reflexivity.
      * cbn [map concat transactions new_Block created].
        rewrite <- app_assoc, Hpool. reflexivity.
    + bind_inv E. inversion E; subst a. exists later. now split.
Qed.


(** [mine] returns as soon as at most one transaction is pending, one of
    the draws seals below the target and the call stack has room for the
    draws before it. *)
Lemma mine_returns_when (bc : Blockchain) (missed : list (byte * byte))
    (d : byte * byte) (later : list (byte * byte)) (stack : nat) (now : Z) :
  (length (pendingTransactions bc) <= 1)%nat ->
  (length missed < stack)%nat ->
  (forall d', In d' missed ->
     startsWith (hmac_hex ((tip_hash (chain bc) ++ "undefined") ++ nonce_of_draw d'))
                (difficulty bc) = false) ->
  startsWith (hmac_hex ((tip_hash (chain bc) ++ "undefined") ++ nonce_of_draw d))
             (difficulty bc) = true ->
  exists bc', mine bc stack (missed ++ d :: later) now = Returns bc'.
Proof.
  intros Hlen Hroom Hmiss Hhit. unfold mine.
  rewrite (proofOfWork_finds bc missed d later stack Hroom Hmiss Hhit).
  cbn [bind].
  unfold addBlock. rewrite constructMerkleTree_cases.
  destruct (Nat.leb_spec (length (pendingTransactions bc)) 1); [| lia].
  cbn [bind]. rewrite getHash_returns. cbn [bind].
  eexists; reflexivity.
Qed.

Lemma reachable_genesis (bc : Blockchain) :
  reachable bc -> exists now rest, chain bc = genesis now :: rest.
Proof.
  induction 1 as [now bc H | bc c bc' _ [now [rest IH]] H].
  - rewrite new_Blockchain_returns in H. inversion H; subst bc.
    now exists now, [].
  - destruct (call_step_chain _ _ _ H) as [-> | [b [-> _]]].
    + now exists now, rest.
    + rewrite IH. now exists now, (rest ++ [b]).
Qed.

Lemma genesis_seal_mismatch :
  String.eqb (hmac_hex "0undefined0") (hmac_hex "00") = false.
Proof. vm_compute. reflexivity. Qed.

(** The validator rejects every chain the engine builds: the first turn
    already fails on the genesis block. *)
Lemma reachable_rejected (bc : Blockchain) :
  reachable bc -> chainIsValid bc = Returns false.
Proof.
  intros Hr. destruct (reachable_genesis bc Hr) as [now [rest Hchain]].
  unfold chainIsValid. rewrite Hchain.
  cbn [length chainIsValid_from].
  rewrite (chainIsValid_turn_genesis (genesis now :: rest) (genesis now) eq_refl).
  cbn [hash genesis new_Block].
  now rewrite genesis_seal_mismatch.
Qed.

(** * The claims *)

(** C1. A freshly constructed [Blockchain] does not pass its own
    validation.  The constructor seals the genesis block over the text
    ["0undefined0"], because the merkle root of the empty pool is
    [undefined]; the first turn of the validator recomputes the seal over
    ["00"], because its empty commitment is the empty array; the two
    digests differ, and [chainIsValid()] returns [false]. *)
Theorem fresh_chain_fails_validation :
  forall now,
    new_Blockchain now = Returns (fresh now) /\
    chain (fresh now) = [genesis now] /\
    encrypt "0" VUndefined "0" = VString "0undefined0" /\
    getHash "0" VUndefined "0" = Returns (hash (genesis now)) /\
    encrypt "0" (VArray []) "0" = VString "00" /\
    getHash "0" (VArray []) "0" = Returns (hmac_hex "00") /\
    String.eqb (hash (genesis now)) (hmac_hex "00") = false /\
    chainIsValid (fresh now) = Returns false.
Proof.
  intros now.
  split; [reflexivity |]. split; [reflexivity |]. split; [reflexivity |].
  split; [vm_compute; reflexivity |].
  split; [reflexivity |]. split; [reflexivity |].
  split; vm_compute; reflexivity.
Qed.

(** C2. The nonce search does not seal with the commitment of the
    pending pool.  It reads [this.merkelRoot], a property that nothing
    assigns, so its outcome is the same whatever is pending.  With two
    transactions pending on the fresh chain and the draw [0c e7], the
    search returns the nonce ["0ce7"], whose seal over the previous hash,
    the text [undefined] and the nonce starts with ["000"], while the
    commitment of the pool, which [addBlock] asks for, cannot be computed
    (a [TypeError]): [mine()] throws and no block is appended. *)
Theorem search_ignores_the_pending_pool :
  (forall (bc : Blockchain) (pool : list Transaction) (stack : nat)
          (draws : list (byte * byte)),
     proofOfWork {| chain := chain bc;
                    pendingTransactions := pool;
                    difficulty := difficulty bc |} stack draws
     = proofOfWork bc stack draws) /\
  (forall (now : Z) (a1 s1 r1 a2 s2 r2 : scalar) (u1 u2 : string),
     proofOfWork
       (createTransaction (createTransaction (fresh now) a1 s1 r1 u1) a2 s2 r2 u2)
       100 [(x0c, xe7)]
     = Returns "0ce7"%string /\
     getHash (hash (genesis now)) VUndefined "0ce7"
     = Returns (hmac_hex ((hash (genesis now) ++ "undefined") ++ "0ce7")) /\
     String.prefix "000" (hmac_hex ((hash (genesis now) ++ "undefined") ++ "0ce7"))
     = true /\
     constructMerkleTree
       (pendingTransactions
          (createTransaction (createTransaction (fresh now) a1 s1 r1 u1)
                             a2 s2 r2 u2))
     = Throws TypeError /\
     mine (createTransaction (createTransaction (fresh now) a1 s1 r1 u1) a2 s2 r2 u2)
          100 [(x0c, xe7)] now
     = Throws TypeError).
Proof.
  split.
  - intros bc pool stack draws. now apply proofOfWork_reads.
  - intros now a1 s1 r1 a2 s2 r2 u1 u2.
    split; [vm_compute; reflexivity |].
    split; [reflexivity |].
    split; [vm_compute; reflexivity |].
    split; [reflexivity |].
    vm_compute; reflexivity.
Qed.

(** C3. On the chain the engine builds by mining one block on top of the
    genesis block, block 1 has both properties the claim asks for (its hash
    is the seal of the hash before it, its stored commitment and its nonce,
    and its [prevHash] is the hash before it), yet the validator's turn for
    [i = 1] rejects it: the validator reseals from the block's transaction
    list, whose text is empty here, where the block was sealed over the
    text [undefined] of its stored commitment. *)
Theorem validator_reseals_from_transaction_list :
  forall now, exists bc1 b h,
    mine (fresh now) 100 [(x0c, xe7)] now = Returns bc1 /\
    chain bc1 = [genesis now; b] /\
    getHash (hash (genesis now)) (merkelRoot b) (nonce b) = Returns (hash b) /\
    prevHash b = hash (genesis now) /\
    getHash (hash (genesis now)) (VArray (transactions b)) (nonce b) = Returns h /\
    String.eqb (hash b) h = false /\
    chainIsValid_turn (chain bc1) 1 = Returns false.
Proof.
  intros now.
  eexists; eexists; eexists.
  split; [vm_compute; reflexivity |].
  split; [vm_compute; reflexivity |].
  split; [vm_compute; reflexivity |].
  split; [vm_compute; reflexivity |].
  split; [vm_compute; reflexivity |].
  split; vm_compute; reflexivity.
Qed.

(** C4. On the freshly constructed chain, writing the digest of ["00"]
    into the [hash] field of the genesis block, a value the field did not
    hold, turns the verdict of [chainIsValid()] from [false] into [true]: a
    block already in the chain has been changed without resealing and the
    validator accepts the result. *)
Theorem tampered_genesis_is_accepted :
  forall now,
    new_Blockchain now = Returns (fresh now) /\
    chainIsValid (fresh now) = Returns false /\
    String.eqb (hash (genesis now)) (hmac_hex "00") = false /\
    chain (mutate_block 0 (set_hash (hmac_hex "00")) (fresh now))
    = [set_hash (hmac_hex "00") (genesis now)] /\
    chainIsValid (mutate_block 0 (set_hash (hmac_hex "00")) (fresh now))
    = Returns true.
Proof.
  intros now.
  split; [reflexivity |].
  split; [vm_compute; reflexivity |].
  split; [vm_compute; reflexivity |].
  split; [reflexivity |].
  vm_compute; reflexivity.
Qed.

(** C5. The merkle construction returns [undefined] for the empty list of
    transactions, a marker and not a digest; passed to the sealer, the
    marker contributes the nine characters [undefined] to the text that is
    hashed, not the empty string.  The genesis text is ["0undefined0"];
    the text with an empty contribution, the one the validator hashes, is
    ["00"]; the two seals differ. *)
Theorem empty_commitment_contributes_undefined :
  constructMerkleTree [] = Returns VUndefined /\
  (forall p n : string,
     encrypt p VUndefined n = VString ((p ++ "undefined") ++ n)) /\
  getHash "0" VUndefined "0" = Returns (hmac_hex "0undefined0") /\
  getHash "0" (VArray []) "0" = Returns (hmac_hex "00") /\
  String.eqb (hmac_hex "0undefined0") (hmac_hex "00") = false.
Proof.
  split; [reflexivity |]. split; [reflexivity |].
  split; [reflexivity |]. split; [reflexivity |].
  vm_compute; reflexivity.
Qed.

(** C6. In every state reachable from the constructor by calls of
    [createTransaction], [mine] and [chainIsValid], every block at an index
    [i > 0] has for [prevHash] the hash of the block at [i - 1]; and each
    of these calls, from any state whose chain is linked, ends in a state
    whose chain is linked. *)
Theorem chain_linkage_invariant :
  (forall bc, reachable bc ->
     forall i b p, (0 < i)%nat ->
       nth_error (chain bc) i = Some b ->
       nth_error (chain bc) (i - 1) = Some p ->
       prevHash b = hash p) /\
  (forall c bc bc',
     linked (chain bc) -> call_step c bc = Returns bc' -> linked (chain bc')).
Proof.
  split.
  - intros bc Hr. exact (reachable_linked bc Hr).
  - intros c bc bc'. apply linked_preserved.
Qed.

Lemma chain_linkage_invariant_witness :
  exists bc b p,
    call_step (Mine 100 [(x0c, xe7)] 5000) (fresh 0) = Returns bc /\
    reachable bc /\
    (0 < 1)%nat /\
    nth_error (chain bc) 1 = Some b /\
    nth_error (chain bc) (1 - 1) = Some p /\
    prevHash b = hash p /\
    linked (chain (fresh 0)) /\
    linked (chain bc).
Proof.
  destruct chain_linkage_invariant as [Hlink Hkeep].
  eexists; eexists; eexists.
  split; [vm_compute; reflexivity |].
  match goal with
  | |- reachable ?bc /\ _ => assert (R : reachable bc)
  end.
  { apply (reachable_call (fresh 0) (Mine 100 [(x0c, xe7)] 5000) _
             (reachable_new 0 _ eq_refl)).
    vm_compute; reflexivity. }
  split; [exact R |].
  split; [lia |].
  split; [reflexivity |].
  split; [reflexivity |].
  split; [apply (Hlink _ R 1%nat); [lia | reflexivity | reflexivity] |].
  split; [apply linked_single |].
  apply (Hkeep (Mine 100 [(x0c, xe7)] 5000) (fresh 0)); [apply linked_single |].
  vm_compute; reflexivity.
Defined.

(** C8. When [mine()] returns the pool is empty and the block it appended
    holds the transactions that were pending; and whatever calls follow,
    the blocks they append hold, together with what is then left in the
    pool, exactly the transactions those later calls created, in order:
    nothing submitted before the first [mine()] is in a later block. *)
Theorem mine_clears_the_pool :
  forall bc stack draws now bc1,
    mine bc stack draws now = Returns bc1 ->
    pendingTransactions bc1 = [] /\
    (exists b, chain bc1 = chain bc ++ [b] /\
               transactions b = pendingTransactions bc) /\
    (forall calls bc2,
       run calls bc1 = Returns bc2 ->
       exists later,
         chain bc2 = chain bc1 ++ later /\
         concat (map transactions later) ++ pendingTransactions bc2
         = created calls).
Proof.
  intros bc stack draws now bc1 H.
  assert (Hpool : pendingTransactions bc1 = []).
  { apply mine_returns in H.
    now destruct H as [n [h [_ [_ [_ [_ ->]]]]]]. }
  split; [exact Hpool |]. split.
  - apply mine_returns in H.
    destruct H as [n [h [_ [_ [_ [_ ->]]]]]].
    eexists; split; reflexivity.
  - intros calls bc2 Hrun.
    destruct (run_blocks _ _ _ Hrun) as [later [Hchain Hblocks]].
    exists later. split; [exact Hchain |].
    now rewrite Hblocks, Hpool.
Qed.

Lemma mine_clears_the_pool_witness :
  exists bc1 bc2,
    mine (createTransaction (fresh 0) (Num 10) (Str "A") (Str "B")
            "110ec58a-a0f2-4ac4-8393-c866d813b8d1")
         100 [(x0c, xe7)] 5000 = Returns bc1 /\
    run [CreateTransaction (Num 7) (Str "C") (Str "D")
           "6ba7b810-9dad-41d1-80b4-00c04fd430c8";
         ChainIsValid;
         Mine 100 [(x06, x94)] 9000] bc1 = Returns bc2 /\
    pendingTransactions bc1 = [] /\
    (exists later,
       chain bc2 = chain bc1 ++ later /\
       concat (map transactions later) ++ pendingTransactions bc2
       = [new_Transaction (Num 7) (Str "C") (Str "D")
            "6ba7b810-9dad-41d1-80b4-00c04fd430c8"]).
Proof.
  eexists; eexists.
  split; [vm_compute; reflexivity |].
  split; [vm_compute; reflexivity |].
  match goal with
  | |- pendingTransactions ?bc1 = [] /\ _ =>
      destruct (mine_clears_the_pool
                  (createTransaction (fresh 0) (Num 10) (Str "A") (Str "B")
                     "110ec58a-a0f2-4ac4-8393-c866d813b8d1")
                  100 [(x0c, xe7)] 5000 bc1) as [Hpool [_ Hlater]]
  end.
  { vm_compute; reflexivity. }
  split; [exact Hpool |].
  apply (Hlater [CreateTransaction (Num 7) (Str "C") (Str "D")
                   "6ba7b810-9dad-41d1-80b4-00c04fd430c8";
                 ChainIsValid;
                 Mine 100 [(x06, x94)] 9000]).
  vm_compute; reflexivity.
Defined.

(** C9. The constructor returns an object whose chain has exactly one
    block, the genesis block at index 0, whose pool is empty and whose
    difficulty is ["000"]; no call that returns changes the difficulty, so
    it is ["000"] in every reachable state. *)
Theorem construction_and_fixed_difficulty :
  (forall now,
     new_Blockchain now = Returns (fresh now) /\
     length (chain (fresh now)) = 1%nat /\
     nth_error (chain (fresh now)) 0 = Some (genesis now) /\
     index (genesis now) = 0%nat /\
     pendingTransactions (fresh now) = [] /\
     difficulty (fresh now) = VString "000") /\
  (forall c bc bc',
     call_step c bc = Returns bc' -> difficulty bc' = difficulty bc) /\
  (forall bc, reachable bc -> difficulty bc = VString "000").
Proof.
  split; [| split].
  - intros now. repeat split.
  - exact call_step_difficulty.
  - exact reachable_difficulty.
Qed.

Lemma construction_and_fixed_difficulty_witness :
  exists bc,
    call_step (Mine 100 [(x0c, xe7)] 5000) (fresh 0) = Returns bc /\
    difficulty bc = difficulty (fresh 0) /\
    reachable bc /\
    difficulty bc = VString "000".
Proof.
  destruct construction_and_fixed_difficulty as [_ [Hcall Hreach]].
  eexists.
  split; [vm_compute; reflexivity |].
  split; [apply (Hcall (Mine 100 [(x0c, xe7)] 5000)); vm_compute; reflexivity |].
  match goal with
  | |- reachable ?bc /\ _ => assert (R : reachable bc)
  end.
  { apply (reachable_call (fresh 0) (Mine 100 [(x0c, xe7)] 5000) _
             (reachable_new 0 _ eq_refl)).
    vm_compute; reflexivity. }
  split; [exact R | exact (Hreach _ R)].
Defined.

(** C10. Two lists of transactions of the same length have the same
    result under [constructMerkleTree]: the leaves are the [hash]
    properties of the transactions, which no [Transaction] has, so the
    result depends on the number of transactions and on none of their
    fields. *)
Theorem commitment_depends_on_length_only :
  forall l1 l2 : list Transaction,
    length l1 = length l2 -> constructMerkleTree l1 = constructMerkleTree l2.
Proof.
  intros l1 l2 Hlen. unfold constructMerkleTree.
  now rewrite !leaves_undefined, Hlen.
Qed.

Lemma commitment_depends_on_length_only_witness :
  length [new_Transaction (Num 10) (Str "A") (Str "B")
            "110ec58a-a0f2-4ac4-8393-c866d813b8d1"]
  = length [new_Transaction (Num 999) (Str "C") (Str "D")
              "6ba7b810-9dad-41d1-80b4-00c04fd430c8"] /\
  constructMerkleTree
    [new_Transaction (Num 10) (Str "A") (Str "B")
       "110ec58a-a0f2-4ac4-8393-c866d813b8d1"]
  = constructMerkleTree
      [new_Transaction (Num 999) (Str "C") (Str "D")
         "6ba7b810-9dad-41d1-80b4-00c04fd430c8"].
Proof.
  split; [reflexivity |].
  apply commitment_depends_on_length_only. reflexivity.
Defined.

(** * Further properties of the code *)

(** ** The format of digests and nonces *)

Lemma compress_length (h block : list Z) :
  length h = 8%nat -> length (SHA256.compress h block) = 8%nat.
Proof.
  intros Hh. unfold SHA256.compress.
  rewrite length_map, length_combine, Hh. reflexivity.
Qed.

Lemma absorb_length (n : nat) :
  forall h ws, length h = 8%nat -> length (SHA256.absorb n h ws) = 8%nat.
Proof.
  induction n as [| n IH]; intros h ws Hh; [exact Hh |].
  cbn [SHA256.absorb]. apply IH. now apply compress_length.
Qed.

Lemma be_bytes_length (w : nat) (x : Z) : length (SHA256.be_bytes w x) = w.
Proof.
  unfold SHA256.be_bytes. now rewrite length_map, length_rev, length_seq.
Qed.

Lemma be_bytes_range (w : nat) (x : Z) :
  Forall (fun b => 0 <= b < 256) (SHA256.be_bytes w x).
Proof.
  unfold SHA256.be_bytes. apply Forall_map, Forall_forall. intros i _.
  change 255 with (Z.ones 8). rewrite Z.land_ones by lia.
  apply Z.mod_pos_bound. lia.
Qed.

Lemma sha256_length (msg : list Z) : length (SHA256.sha256 msg) = 32%nat.
Proof.
  unfold SHA256.sha256. cbv zeta.
  rewrite (flat_map_constant_length (c := 4)).
  - now rewrite absorb_length.
  - intros x _. apply be_bytes_length.
Qed.

Lemma sha256_range (msg : list Z) :
  Forall (fun b => 0 <= b < 256) (SHA256.sha256 msg).
Proof.
  unfold SHA256.sha256. cbv zeta.
  apply Forall_flat_map, Forall_forall. intros x _. apply be_bytes_range.
Qed.

Lemma hex_of_bytes_length (bs : list Z) :
  String.length (hex_of_bytes bs) = (2 * length bs)%nat.
Proof.
  induction bs as [| b bs IH]; [reflexivity |].
  cbn [hex_of_bytes String.length length]. rewrite IH. lia.
Qed.

Lemma hex_digit_is_hex (n : Z) :
  0 <= n < 16 -> is_hex_digit (hex_digit n) = true.
Proof.
  intros Hn.
  rewrite <- (Z2Nat.id n) by lia.
  assert (Hk : (Z.to_nat n < 16)%nat) by lia.
  revert Hk. generalize (Z.to_nat n) as k. intros k Hk.
  do 16 (destruct k as [| k]; [reflexivity |]). lia.
Qed.

Lemma nibbles_range (b : Z) :
  0 <= b < 256 -> 0 <= Z.shiftr b 4 < 16 /\ 0 <= Z.land b 15 < 16.
Proof.
  intros Hb. rewrite Z.shiftr_div_pow2 by lia.
  change 15 with (Z.ones 4). rewrite Z.land_ones by lia.
  change (2 ^ 4) with 16. split.
  - split; [apply Z.div_pos; lia | apply Z.div_lt_upper_bound; lia].
  - apply Z.mod_pos_bound. lia.
Qed.

Lemma hex_of_bytes_is_hex (bs : list Z) :
  Forall (fun b => 0 <= b < 256) bs ->
  all_chars is_hex_digit (hex_of_bytes bs) = true.
Proof.
  induction 1 as [| b bs Hb _ IH]; [reflexivity |].
  destruct (nibbles_range b Hb) as [Hhi Hlo].
  cbn [hex_of_bytes all_chars].
  now rewrite (hex_digit_is_hex _ Hhi), (hex_digit_is_hex _ Hlo), IH.
Qed.

Lemma hmac_hex_format (data : string) :
  String.length (hmac_hex data) = 64%nat /\
  all_chars is_hex_digit (hmac_hex data) = true.
Proof.
  unfold hmac_hex, SHA256.hmac. cbv zeta. split.
  - now rewrite hex_of_bytes_length, sha256_length.
  - apply hex_of_bytes_is_hex, sha256_range.
Qed.

(** X1. [getHash] returns for every previous hash, every commitment value
    (a string, [undefined], [NaN] or an array) and every nonce, and what
    it returns is a digest of exactly 64 characters, all of them in
    [0-9a-f]. *)
Theorem getHash_returns_a_hex_digest :
  forall (p : string) (m : value) (n : string),
    exists h,
      getHash p m n = Returns h /\
      String.length h = 64%nat /\
      all_chars is_hex_digit h = true.
Proof.
  intros p m n. rewrite getHash_returns.
  eexists. split; [reflexivity |]. apply hmac_hex_format.
Qed.

Lemma hex_digit_inj (m n : Z) :
  0 <= m < 16 -> 0 <= n < 16 -> hex_digit m = hex_digit n -> m = n.
Proof.
  intros Hm Hn H.
  apply (f_equal N_of_ascii) in H. unfold hex_digit in H.
  rewrite !N_ascii_embedding in H.
  - destruct (Z.ltb_spec m 10), (Z.ltb_spec n 10); lia.
  - destruct (Z.ltb_spec n 10); lia.
  - destruct (Z.ltb_spec m 10); lia.
Qed.

Lemma byte_range (b : byte) : 0 <= Z.of_N (Byte.to_N b) < 256.
Proof. pose proof (Byte.to_N_bounded b). lia. Qed.

Lemma byte_hex_inj (a b : byte) :
  hex_of_bytes [Z.of_N (Byte.to_N a)] = hex_of_bytes [Z.of_N (Byte.to_N b)] ->
  a = b.
Proof.
  cbn [hex_of_bytes]. intros H. inversion H as [[Hhi Hlo]]. clear H.
  pose proof (byte_range a) as Ha. pose proof (byte_range b) as Hb.
  destruct (nibbles_range _ Ha) as [Ha1 Ha2].
  destruct (nibbles_range _ Hb) as [Hb1 Hb2].
  apply hex_digit_inj in Hhi; [| assumption | assumption].
  apply hex_digit_inj in Hlo; [| assumption | assumption].
  rewrite !Z.shiftr_div_pow2 in Hhi by lia.
  change 15 with (Z.ones 4) in Hlo. rewrite !Z.land_ones in Hlo by lia.
  change (2 ^ 4) with 16 in *.
  assert (Heq : Z.of_N (Byte.to_N a) = Z.of_N (Byte.to_N b)).
  { rewrite (Z.div_mod (Z.of_N (Byte.to_N a)) 16) by lia.
    rewrite (Z.div_mod (Z.of_N (Byte.to_N b)) 16) by lia.
    now rewrite Hhi, Hlo. }
  apply N2Z.inj in Heq.
  pose proof (Byte.of_to_N a) as Ea. pose proof (Byte.of_to_N b) as Eb.
  rewrite Heq in Ea. congruence.
Qed.

(** X2. The nonce made of two random bytes has exactly four characters,
    all in [0-9a-f], and two different draws never give the same nonce:
    the search ranges over 65536 nonces. *)
Theorem nonce_of_draw_format :
  forall d : byte * byte,
    String.length (nonce_of_draw d) = 4%nat /\
    all_chars is_hex_digit (nonce_of_draw d) = true /\
    (forall d', nonce_of_draw d = nonce_of_draw d' -> d = d').
Proof.
  intros [a b]. unfold nonce_of_draw. cbn [fst snd].
  split; [reflexivity |]. split.
  - apply hex_of_bytes_is_hex.
    repeat constructor; apply byte_range.
  - intros [a' b']. cbn [fst snd hex_of_bytes]. intros H.
    inversion H as [[H1 H2 H3 H4]]. f_equal.
    + apply byte_hex_inj. cbn [hex_of_bytes]. now rewrite H1, H2.
    + apply byte_hex_inj. cbn [hex_of_bytes]. now rewrite H3, H4.
Qed.

Lemma nonce_of_draw_format_witness :
  nonce_of_draw (x0c, xe7) = nonce_of_draw (x0c, xe7) /\
  (x0c, xe7) = (x0c, xe7).
Proof.
  split; [reflexivity |].
  apply (proj2 (proj2 (nonce_of_draw_format (x0c, xe7)))). reflexivity.
Defined.

(** ** The identifier of a transaction *)

Lemma split_nonempty (sep : ascii) (s : string) : split sep s <> [].
Proof.
  destruct s as [| c rest]; cbn [split]; [discriminate |].
  destruct (Ascii.eqb c sep); [discriminate |].
  destruct (split sep rest); discriminate.
Qed.

Lemma join_split_hyphens (s : string) :
  join (split "-" s) = hyphens_to_commas s.
Proof.
  unfold join. induction s as [| c rest IH]; [reflexivity |].
  cbn [split hyphens_to_commas].
  pose proof (split_nonempty "-" rest) as Hne.
  destruct (Ascii.eqb c "-").
  - destruct (split "-" rest) as [| piece pieces] eqn:E; [congruence |].
    cbn [String.concat append]. now rewrite <- IH.
  - destruct (split "-" rest) as [| piece pieces] eqn:E; [congruence |].
    rewrite <- IH.
    destruct pieces; reflexivity.
Qed.

Lemma hyphens_to_commas_length (s : string) :
  String.length (hyphens_to_commas s) = String.length s.
Proof.
  induction s as [| c rest IH]; [reflexivity |].
  cbn [hyphens_to_commas String.length]. now rewrite IH.
Qed.

Lemma hyphens_to_commas_no_hyphen (s : string) :
  all_chars (fun c => negb (Ascii.eqb c "-")) (hyphens_to_commas s) = true.
Proof.
  induction s as [| c rest IH]; [reflexivity |].
  cbn [hyphens_to_commas all_chars]. rewrite IH, andb_true_r.
  destruct (Ascii.eqb c "-") eqn:E; [reflexivity |]. now rewrite E.
Qed.

(** X3. The identifier of a transaction is the UUID the generator
    returned with every hyphen replaced by a comma
    ([split('-').join()] joins with the default separator): it has the
    length of the UUID, holds no hyphen, and the other characters are
    kept in place. *)
Theorem tx_id_turns_hyphens_into_commas :
  forall (a s r : scalar) (uuid : string),
    tx_id (new_Transaction a s r uuid) = hyphens_to_commas uuid /\
    String.length (tx_id (new_Transaction a s r uuid)) = String.length uuid /\
    all_chars (fun c => negb (Ascii.eqb c "-")) (tx_id (new_Transaction a s r uuid))
    = true.
Proof.
  intros a s r uuid. cbn [tx_id new_Transaction].
  rewrite join_split_hyphens.
  split; [reflexivity |].
  split; [apply hyphens_to_commas_length | apply hyphens_to_commas_no_hyphen].
Qed.

(** ** The commitment, the search and block assembly *)

(** X4. On the transactions of the engine the merkle construction never
    returns a digest: it returns [undefined] when the list holds no
    transaction or one, and throws a [TypeError] when it holds two or
    more (the first pair of leaves is [undefined + undefined], that is
    [NaN], which [update] refuses). *)
Theorem commitment_is_undefined_or_throws :
  forall txs : list Transaction,
    constructMerkleTree txs =
    if (length txs <=? 1)%nat then Returns VUndefined else Throws TypeError.
Proof.
  intros [| t1 [| t2 rest]]; reflexivity.
Qed.

Lemma proofOfWork_first (bc : Blockchain) (stack : nat) :
  forall draws : list (byte * byte),
    proofOfWork bc stack draws =
    match find (qualifies bc) (firstn stack draws) with
    | Some d => Returns (nonce_of_draw d)
    | None => if (stack <=? length draws)%nat then Throws RangeError else Running
    end.
Proof.
  induction stack as [| stack IH]; intros draws; [reflexivity |].
  destruct draws as [| d later]; [reflexivity |].
  cbn [proofOfWork firstn find length]. rewrite getHash_returns.
  unfold Blockchain_merkelRoot; cbn [toString bind].
  fold (qualifies bc d).
  destruct (qualifies bc d); [reflexivity |].
  rewrite IH. reflexivity.
Qed.

(** X5. The outcomes of the nonce search, with room on the call stack for
    [stack] activations.  If one of the first [stack] draws qualifies (its
    seal over the previous hash, the text [undefined] and the nonce starts
    with the difficulty), the search returns the nonce of the first that
    does.  If none of them does, the search ends in a [RangeError] once
    [stack] draws have been rejected, and it is still running as long as
    fewer have been drawn.  It never throws a [TypeError]. *)
Theorem proofOfWork_outcomes :
  forall (bc : Blockchain) (stack : nat) (draws : list (byte * byte)),
    proofOfWork bc stack draws =
    match find (qualifies bc) (firstn stack draws) with
    | Some d => Returns (nonce_of_draw d)
    | None => if (stack <=? length draws)%nat then Throws RangeError else Running
    end.
Proof.
  intros bc stack draws. apply proofOfWork_first.
Qed.

(** X6. The outcomes of [mine()], with room on the call stack for [stack]
    activations of the search.  If none of the first [stack] draws
    qualifies, [mine()] ends in a [RangeError] once [stack] draws have
    been rejected and is still running before that.  Otherwise, with the
    first qualifying draw, it throws a [TypeError] when two or more
    transactions are pending, and when at most one is pending it returns
    the object with one more block (index the former length of the chain,
    the pending transactions, the hash of the former last block, the
    nonce, its seal, commitment [undefined]), an empty pool and the same
    difficulty. *)
Theorem mine_outcomes :
  forall (bc : Blockchain) (stack : nat) (draws : list (byte * byte)) (now : Z),
    mine bc stack draws now =
    match find (qualifies bc) (firstn stack draws) with
    | None => if (stack <=? length draws)%nat then Throws RangeError else Running
    | Some d =>
        if (length (pendingTransactions bc) <=? 1)%nat
        then Returns
               {| chain := chain bc ++
                    [new_Block now (length (chain bc)) (pendingTransactions bc)
                       (tip_hash (chain bc)) (nonce_of_draw d)
                       (hmac_hex ((tip_hash (chain bc) ++ "undefined")
                                  ++ nonce_of_draw d))
                       VUndefined];
                  pendingTransactions := [];
                  difficulty := difficulty bc |}
        else Throws TypeError
    end.
Proof.
  intros bc stack draws now. unfold mine.
  rewrite proofOfWork_first.
  destruct (find (qualifies bc) (firstn stack draws)) as [d |].
  - cbn [bind]. unfold addBlock. rewrite constructMerkleTree_cases.
    destruct (length (pendingTransactions bc) <=? 1)%nat; [| reflexivity].
    cbn [bind]. rewrite getHash_returns. reflexivity.
  - destruct (stack <=? length draws)%nat; reflexivity.
Qed.

Lemma mine_stuck (bc : Blockchain) (stack : nat) (draws : list (byte * byte))
    (now : Z) (bc' : Blockchain) :
  (1 < length (pendingTransactions bc))%nat ->
  mine bc stack draws now <> Returns bc'.
Proof.
  intros Hlen H. apply mine_returns in H.
  destruct H as [n [h [_ [Hm _]]]].
  rewrite constructMerkleTree_cases in Hm.
  destruct (Nat.leb_spec (length (pendingTransactions bc)) 1); [lia | discriminate].
Qed.

(** X7. Once two or more transactions are pending the engine cannot mine
    any more: [mine()] does not return, whatever the draws, and whatever
    calls return after that, the chain is the same, none of them is a
    [mine()], and the pool has only grown by what they created. *)
Theorem two_pending_transactions_block_mining :
  forall bc : Blockchain,
    (1 < length (pendingTransactions bc))%nat ->
    (forall stack draws now bc', mine bc stack draws now <> Returns bc') /\
    (forall calls bc',
       run calls bc = Returns bc' ->
       chain bc' = chain bc /\
       mines calls = 0%nat /\
       pendingTransactions bc' = pendingTransactions bc ++ created calls).
Proof.
  intros bc Hlen. split.
  - intros stack draws now bc'. now apply mine_stuck.
  - intros calls. revert bc Hlen.
    induction calls as [| c calls IH]; intros bc Hlen bc' H.
    + inversion H; subst bc'. cbn. now rewrite app_nil_r.
    + cbn [run] in H. bind_inv H.
      destruct c as [am s r uuid | stack draws now | ]; cbn [call_step] in E.
      * inversion E; subst a.
        destruct (IH (createTransaction bc am s r uuid)) with (bc' := bc')
          as [Hc [Hm Hp]]; [| exact H |].
        { cbn [createTransaction pendingTransactions].
          rewrite length_app. lia. }
        cbn [createTransaction chain pendingTransactions] in *.
        repeat split; [exact Hc | exact Hm |].
        rewrite Hp. cbn [created]. now rewrite <- app_assoc.
      * exfalso. exact (mine_stuck _ _ _ _ _ Hlen E).
      * bind_inv E. inversion E; subst a.
        destruct (IH bc Hlen bc' H) as [Hc [Hm Hp]].
        repeat split; assumption.
Qed.

Lemma two_pending_transactions_block_mining_witness :
  exists bc',
    (1 < length (pendingTransactions
                   (createTransaction
                      (createTransaction (fresh 0) (Num 1) (Str "A") (Str "B") "u-1")
                      (Num 2) (Str "C") (Str "D") "u-2")))%nat /\
    mine (createTransaction
            (createTransaction (fresh 0) (Num 1) (Str "A") (Str "B") "u-1")
            (Num 2) (Str "C") (Str "D") "u-2")
         100 [(x0c, xe7)] 5000
    <> Returns (fresh 0) /\
    run [CreateTransaction (Num 3) (Str "E") (Str "F") "u-3"; ChainIsValid]
        (createTransaction
           (createTransaction (fresh 0) (Num 1) (Str "A") (Str "B") "u-1")
           (Num 2) (Str "C") (Str "D") "u-2")
    = Returns bc' /\
    chain bc' = chain (fresh 0).
Proof.
  destruct (two_pending_transactions_block_mining
              (createTransaction
                 (createTransaction (fresh 0) (Num 1) (Str "A") (Str "B") "u-1")
                 (Num 2) (Str "C") (Str "D") "u-2")) as [Hmine Hrun].
  { cbn; lia. }
  eexists.
  split; [cbn; lia |].
  split; [apply Hmine |].
  split; [vm_compute; reflexivity |].
  apply (Hrun [CreateTransaction (Num 3) (Str "E") (Str "F") "u-3"; ChainIsValid]).
  vm_compute; reflexivity.
Defined.

(** ** The verdict of the validator *)

Lemma chainIsValid_from_links (rest : list Block) :
  forall (pre : list Block) (p : Block),
    chainIsValid_from (length rest) (pre ++ p :: rest) (length pre + 1)
    = Returns (links_accepted p rest).
Proof.
  induction rest as [| b rest IH]; intros pre p; [reflexivity |].
  cbn [length chainIsValid_from links_accepted].
  rewrite Nat.add_1_r.
  rewrite (chainIsValid_turn_later (pre ++ p :: b :: rest) (length pre) b p).
  - cbn [bind].
    destruct (String.eqb (hash b) _ && String.eqb (prevHash b) (hash p));
      [| reflexivity].
    cbn [andb].
    replace (pre ++ p :: b :: rest) with ((pre ++ [p]) ++ b :: rest)
      by now rewrite <- app_assoc.
    replace (S (length pre) + 1)%nat with (length (pre ++ [p]) + 1)%nat
      by (rewrite length_app; cbn [length]; lia).
    apply IH.
  - replace (S (length pre)) with (length (pre ++ [p]))
      by (rewrite length_app; cbn [length]; lia).
    replace (pre ++ p :: b :: rest) with ((pre ++ [p]) ++ b :: rest)
      by now rewrite <- app_assoc.
    now rewrite nth_error_app2, Nat.sub_diag by lia.
  - now rewrite nth_error_app2, Nat.sub_diag by lia.
Qed.

(** X8. The validator returns a verdict on every chain and never throws.
    The verdict is [true] exactly when the hash of the first block is the
    seal of the text ["00"] and every later block has for hash the seal of
    the hash before it, the text of its transaction array and its nonce,
    and for [prevHash] the hash before it; the empty chain is accepted. *)
Theorem chainIsValid_verdict :
  forall bc : Blockchain, chainIsValid bc = Returns (accepted (chain bc)).
Proof.
  intros bc. unfold chainIsValid.
  destruct (chain bc) as [| g later]; [reflexivity |].
  cbn [length chainIsValid_from accepted].
  rewrite (chainIsValid_turn_genesis (g :: later) g eq_refl). cbn [bind].
  destruct (String.eqb (hash g) (hmac_hex "00")); [| reflexivity].
  cbn [andb]. exact (chainIsValid_from_links later [] g).
Qed.

(** X9. The verdict of the validator depends only on the hash, the
    previous hash, the nonce and the number of transactions of each block:
    two chains that agree on these get the same verdict, whatever their
    indices, timestamps, stored commitments and the fields of their
    transactions. *)
Theorem chainIsValid_reads_four_things :
  forall bc1 bc2 : Blockchain,
    map validated_part (chain bc1) = map validated_part (chain bc2) ->
    chainIsValid bc1 = chainIsValid bc2.
Proof.
  intros bc1 bc2 Heq. unfold chainIsValid.
  replace (length (chain bc1)) with (length (chain bc2)).
  - now apply chainIsValid_from_reads.
  - rewrite <- (length_map validated_part (chain bc2)), <- Heq.
    apply length_map.
Qed.

Lemma chainIsValid_reads_four_things_witness :
  map validated_part
      [mkBlock 0 0 [new_Transaction (Num 10) (Str "A") (Str "B") "u-1"]
               "0" "1f" "0" VUndefined]
  = map validated_part
        [mkBlock 7 1234 [new_Transaction (Num 99) (Str "C") (Str "D") "u-2"]
                 "0" "1f" "0" (VString "abc")] /\
  chainIsValid
    {| chain := [mkBlock 0 0 [new_Transaction (Num 10) (Str "A") (Str "B") "u-1"]
                         "0" "1f" "0" VUndefined];
       pendingTransactions := []; difficulty := VString "000" |}
  = chainIsValid
      {| chain := [mkBlock 7 1234
                           [new_Transaction (Num 99) (Str "C") (Str "D") "u-2"]
                           "0" "1f" "0" (VString "abc")];
         pendingTransactions := []; difficulty := VString "000" |}.
Proof.
  split; [reflexivity |].
  apply chainIsValid_reads_four_things. reflexivity.
Defined.

(** X10. The validator rejects every chain the engine builds: in every
    state reachable from the constructor by calls that return,
    [chainIsValid()] returns [false]. *)
Theorem engine_chains_fail_validation :
  forall bc : Blockchain, reachable bc -> chainIsValid bc = Returns false.
Proof.
  intros bc Hr. destruct (reachable_genesis bc Hr) as [now [rest Hchain]].
  unfold chainIsValid. rewrite Hchain.
  cbn [length chainIsValid_from].
  rewrite (chainIsValid_turn_genesis (genesis now :: rest) (genesis now) eq_refl).
  cbn [hash genesis new_Block].
  now rewrite genesis_seal_mismatch.
Qed.

Lemma engine_chains_fail_validation_witness :
  exists bc,
    call_step (Mine 100 [(x0c, xe7)] 5000) (fresh 0) = Returns bc /\
    reachable bc /\
    chainIsValid bc = Returns false.
Proof.
  eexists.
  split; [vm_compute; reflexivity |].
  match goal with
  | |- reachable ?bc /\ _ => assert (R : reachable bc)
  end.
  { apply (reachable_call (fresh 0) (Mine 100 [(x0c, xe7)] 5000) _
             (reachable_new 0 _ eq_refl)).
    vm_compute; reflexivity. }
  split; [exact R |].
  exact (engine_chains_fail_validation _ R).
Defined.

(** ** What the chain of a reachable state looks like *)

Lemma run_length (calls : list call) :
  forall bc bc', run calls bc = Returns bc' ->
    length (chain bc') = (length (chain bc) + mines calls)%nat.
Proof.
  induction calls as [| c calls IH]; intros bc bc' H.
  - inversion H; subst bc'. cbn. lia.
  - cbn [run] in H. bind_inv H. rewrite (IH _ _ H).
    destruct c as [am s r uuid | stack draws now | ]; cbn [call_step mines] in *.
    + inversion E; subst a. reflexivity.
    + apply mine_returns in E.
      destruct E as [n [h [_ [_ [_ [_ ->]]]]]]. cbn [chain].
      rewrite length_app. cbn [length]. lia.
    + bind_inv E. inversion E; subst a. reflexivity.
Qed.

(** X11. Blocks are only ever appended: when a sequence of calls returns,
    the chain it leaves is the chain it found followed by exactly one new
    block for each [mine()] of the sequence. *)
Theorem chain_grows_by_one_block_per_mine :
  forall calls bc bc',
    run calls bc = Returns bc' ->
    exists later,
      chain bc' = chain bc ++ later /\ length later = mines calls.
Proof.
  intros calls bc bc' H.
  destruct (run_blocks _ _ _ H) as [later [Hchain _]].
  exists later. split; [exact Hchain |].
  pose proof (run_length _ _ _ H) as Hlen.
  rewrite Hchain, length_app in Hlen. lia.
Qed.

Lemma chain_grows_by_one_block_per_mine_witness :
  exists bc',
    run [CreateTransaction (Num 7) (Str "C") (Str "D") "u-1";
         Mine 100 [(x0c, xe7)] 5000;
         ChainIsValid] (fresh 0) = Returns bc' /\
    exists later,
      chain bc' = chain (fresh 0) ++ later /\
      length later = mines [CreateTransaction (Num 7) (Str "C") (Str "D") "u-1";
                            Mine 100 [(x0c, xe7)] 5000;
                            ChainIsValid].
Proof.
  eexists.
  split; [vm_compute; reflexivity |].
  apply (chain_grows_by_one_block_per_mine
           [CreateTransaction (Num 7) (Str "C") (Str "D") "u-1";
            Mine 100 [(x0c, xe7)] 5000;
            ChainIsValid] (fresh 0)).
  vm_compute; reflexivity.
Defined.

Lemma nth_error_snoc {A : Type} (l : list A) (x y : A) (i : nat) :
  nth_error (l ++ [x]) i = Some y ->
  nth_error l i = Some y \/ (i = length l /\ y = x).
Proof.
  intros H. destruct (Nat.lt_ge_cases i (length l)) as [Hlt | Hge].
  - left. now rewrite nth_error_app1 in H by lia.
  - right. rewrite nth_error_app2 in H by lia.
    destruct (i - length l)%nat as [| k] eqn:Ek.
    + inversion H. split; [lia | reflexivity].
    + now destruct k.
Qed.

(** X12. In every reachable state a block sits at the position its
    [index] names: the block at position [i] of the chain has index
    [i]. *)
Theorem block_index_is_its_position :
  forall bc : Blockchain,
    reachable bc ->
    forall i b, nth_error (chain bc) i = Some b -> index b = i.
Proof.
  intros bc Hr. induction Hr as [now bc H | bc c bc' Hr IH H].
  - rewrite new_Blockchain_returns in H. inversion H; subst bc.
    intros [| [| i]] b Hb; try discriminate Hb. now inversion Hb.
  - destruct c as [am s r uuid | stack draws now | ]; cbn [call_step] in H.
    + inversion H; subst bc'. exact IH.
    + apply mine_returns in H.
      destruct H as [n [h [_ [_ [_ [_ ->]]]]]]. cbn [chain].
      intros i b Hb. apply nth_error_snoc in Hb.
      destruct Hb as [Hb | [-> ->]]; [now apply IH | reflexivity].
    + bind_inv H. inversion H; subst bc'. exact IH.
Qed.

Lemma block_index_is_its_position_witness :
  exists bc b,
    call_step (Mine 100 [(x0c, xe7)] 5000) (fresh 0) = Returns bc /\
    reachable bc /\
    nth_error (chain bc) 1 = Some b /\
    index b = 1%nat.
Proof.
  eexists; eexists.
  split; [vm_compute; reflexivity |].
  match goal with
  | |- reachable ?bc /\ _ => assert (R : reachable bc)
  end.
  { apply (reachable_call (fresh 0) (Mine 100 [(x0c, xe7)] 5000) _
             (reachable_new 0 _ eq_refl)).
    vm_compute; reflexivity. }
  split; [exact R |].
  split; [reflexivity |].
  apply (block_index_is_its_position _ R 1%nat). reflexivity.
Defined.

(** X13. No block of a reachable chain holds more than one transaction,
    and the commitment stored in every block is [undefined]: a pool of two
    or more is never mined, and the construction gives nothing else for
    less. *)
Theorem blocks_hold_at_most_one_transaction :
  forall bc : Blockchain,
    reachable bc ->
    forall b, In b (chain bc) ->
      (length (transactions b) <= 1)%nat /\ merkelRoot b = VUndefined.
Proof.
  intros bc Hr. induction Hr as [now bc H | bc c bc' Hr IH H].
  - rewrite new_Blockchain_returns in H. inversion H; subst bc.
    intros b [<- | []]. cbn. split; [lia | reflexivity].
  - destruct c as [am s r uuid | stack draws now | ]; cbn [call_step] in H.
    + inversion H; subst bc'. exact IH.
    + apply mine_returns in H.
      destruct H as [n [h [_ [Hm [_ [_ ->]]]]]]. cbn [chain].
      intros b Hb. apply in_app_or in Hb.
      destruct Hb as [Hb | [<- | []]]; [now apply IH |].
      cbn [transactions merkelRoot new_Block]. split; [| reflexivity].
      rewrite constructMerkleTree_cases in Hm.
      destruct (Nat.leb_spec (length (pendingTransactions bc)) 1);
        [assumption | discriminate].
    + bind_inv H. inversion H; subst bc'. exact IH.
Qed.

Lemma blocks_hold_at_most_one_transaction_witness :
  exists bc b,
    call_step (Mine 100 [(x0c, xe7)] 5000)
              (createTransaction (fresh 0) (Num 7) (Str "C") (Str "D") "u-1")
    = Returns bc /\
    reachable bc /\
    nth_error (chain bc) 1 = Some b /\
    In b (chain bc) /\
    (length (transactions b) <= 1)%nat /\ merkelRoot b = VUndefined.
Proof.
  eexists; eexists.
  split; [vm_compute; reflexivity |].
  match goal with
  | |- reachable ?bc /\ _ => assert (R : reachable bc)
  end.
  { apply (reachable_call
             (createTransaction (fresh 0) (Num 7) (Str "C") (Str "D") "u-1")
             (Mine 100 [(x0c, xe7)] 5000)).
    - apply (reachable_call (fresh 0)
               (CreateTransaction (Num 7) (Str "C") (Str "D") "u-1") _
               (reachable_new 0 _ eq_refl)).
      reflexivity.
    - vm_compute; reflexivity. }
  split; [exact R |].
  split; [reflexivity |].
  match goal with
  | |- In ?b ?l /\ _ => assert (I : In b l) by (right; left; reflexivity)
  end.
  split; [exact I |].
  exact (blocks_hold_at_most_one_transaction _ R _ I).
Defined.

(** X14. Every block of a reachable chain, the genesis block included,
    has for hash the seal of its own previous hash, stored commitment and
    nonce, and the hash of every block after the first starts with
    ["000"]. *)
Theorem blocks_are_sealed_over_their_fields :
  forall bc : Blockchain,
    reachable bc ->
    forall i b, nth_error (chain bc) i = Some b ->
      getHash (prevHash b) (merkelRoot b) (nonce b) = Returns (hash b) /\
      ((0 < i)%nat -> String.prefix "000" (hash b) = true).
Proof.
  intros bc Hr i b Hb.
  destruct (reachable_sealed bc Hr) as [Hs Ht].
  split.
  - apply nth_error_In in Hb.
    exact (proj1 (Forall_forall _ _) Hs b Hb).
  - intros Hi. destruct i as [| j]; [lia |].
    destruct (chain bc) as [| g rest]; [discriminate Hb |].
    cbn [nth_error tl] in *. apply nth_error_In in Hb.
    exact (proj1 (Forall_forall _ _) Ht b Hb).
Qed.

Lemma blocks_are_sealed_over_their_fields_witness :
  exists bc b,
    call_step (Mine 100 [(x0c, xe7)] 5000) (fresh 0) = Returns bc /\
    reachable bc /\
    nth_error (chain bc) 1 = Some b /\
    (0 < 1)%nat /\
    getHash (prevHash b) (merkelRoot b) (nonce b) = Returns (hash b) /\
    String.prefix "000" (hash b) = true.
Proof.
  eexists; eexists.
  split; [vm_compute; reflexivity |].
  match goal with
  | |- reachable ?bc /\ _ => assert (R : reachable bc)
  end.
  { apply (reachable_call (fresh 0) (Mine 100 [(x0c, xe7)] 5000) _
             (reachable_new 0 _ eq_refl)).
    vm_compute; reflexivity. }
  split; [exact R |].
  split; [reflexivity |].
  split; [lia |].
  destruct (blocks_are_sealed_over_their_fields _ R 1%nat _ eq_refl) as [Hs Hp].
  split; [exact Hs | apply Hp; lia].
Defined.

(** ** The driver and the script *)

Lemma simulateChain_inner_pool (txs : list tx_readings) :
  forall bc,
    chain (simulateChain_inner bc txs) = chain bc /\
    difficulty (simulateChain_inner bc txs) = difficulty bc /\
    pendingTransactions (simulateChain_inner bc txs)
    = pendingTransactions bc ++ map driver_transaction txs.
Proof.
  induction txs as [| t txs IH]; intros bc.
  - cbn. now rewrite app_nil_r.
  - cbn [simulateChain_inner map].
    destruct (IH (createTransaction bc (Str (substr 0 5 (sender_uuid t)))
                    (Str (substr 0 5 (receiver_uuid t)))
                    (Num (amount_drawn t)) (id_uuid t))) as [Hc [Hd Hp]].
    rewrite Hc, Hd, Hp. cbn [createTransaction chain difficulty pendingTransactions].
    now rewrite <- app_assoc.
Qed.

Lemma simulateChain_inner_run (txs : list tx_readings) :
  forall bc later,
    run (map (fun t => CreateTransaction (Str (substr 0 5 (sender_uuid t)))
                                         (Str (substr 0 5 (receiver_uuid t)))
                                         (Num (amount_drawn t)) (id_uuid t))
             txs ++ later) bc
    = run later (simulateChain_inner bc txs).
Proof.
  induction txs as [| t txs IH]; intros bc later; [reflexivity |].
  cbn [map app run call_step bind simulateChain_inner]. apply IH.
Qed.

Lemma simulateChain_from_run (env : nat -> round_readings) (turns : nat) :
  forall i bc,
    simulateChain_from env i turns bc
    = run (flat_map (fun k => round_calls (env k)) (seq i turns)) bc.
Proof.
  induction turns as [| turns IH]; intros i bc; [reflexivity |].
  cbn [simulateChain_from seq flat_map]. unfold round_calls at 1.
  rewrite <- app_assoc, simulateChain_inner_run.
  cbn [app run call_step].
  destruct (mine _ _ _); cbn [bind]; [apply IH | reflexivity | reflexivity].
Qed.

Lemma substr_length (len : nat) :
  forall s, (String.length (substr 0 len s) <= len)%nat.
Proof.
  unfold substr. induction len as [| len IH]; intros s.
  - destruct s; cbn; lia.
  - destruct s as [| c rest]; cbn [String.substring String.length]; [lia |].
    specialize (IH rest). lia.
Qed.

(** X15. The driver passes [(sender, receiver, number)] where
    [createTransaction] takes [(amount, sender, recipient)]: after the
    inner loop the chain is untouched and the pool has grown, in order, by
    one transaction for each turn, whose [amount] is the text of at most
    five characters cut from the first UUID, whose [sender] is the text
    cut from the second UUID, and whose [recipient] is the number drawn. *)
Theorem driver_swaps_transaction_fields :
  forall (bc : Blockchain) (txs : list tx_readings),
    chain (simulateChain_inner bc txs) = chain bc /\
    pendingTransactions (simulateChain_inner bc txs)
    = pendingTransactions bc ++
      map (fun t =>
             {| amount := Str (substr 0 5 (sender_uuid t));
                sender := Str (substr 0 5 (receiver_uuid t));
                recipient := Num (amount_drawn t);
                tx_id := hyphens_to_commas (id_uuid t) |}) txs /\
    (forall t, In t txs ->
       (String.length (substr 0 5 (sender_uuid t)) <= 5)%nat /\
       (String.length (substr 0 5 (receiver_uuid t)) <= 5)%nat).
Proof.
  intros bc txs.
  destruct (simulateChain_inner_pool txs bc) as [Hc [_ Hp]].
  split; [exact Hc |]. split.
  - rewrite Hp. f_equal. apply map_ext. intros t.
    unfold driver_transaction, new_Transaction.
    now rewrite join_split_hyphens.
  - intros t _. split; apply substr_length.
Qed.

Lemma driver_swaps_transaction_fields_witness :
  In (mkTxReadings "110ec58a-a0f2" "6ba7b810-9dad" 250 "u-1")
     [mkTxReadings "110ec58a-a0f2" "6ba7b810-9dad" 250 "u-1"] /\
  (String.length (substr 0 5 "110ec58a-a0f2") <= 5)%nat /\
  pendingTransactions
    (simulateChain_inner (fresh 0)
       [mkTxReadings "110ec58a-a0f2" "6ba7b810-9dad" 250 "u-1"])
  = [{| amount := Str "110ec"; sender := Str "6ba7b";
        recipient := Num 250; tx_id := "u,1" |}].
Proof.
  destruct (driver_swaps_transaction_fields (fresh 0)
              [mkTxReadings "110ec58a-a0f2" "6ba7b810-9dad" 250 "u-1"])
    as [_ [Hp Hlen]].
  split; [left; reflexivity |].
  split; [exact (proj1 (Hlen _ (or_introl eq_refl))) | exact Hp].
Defined.

Lemma simulateChain_from_returns (env : nat -> round_readings) (turns : nat) :
  forall i bc bc',
    simulateChain_from env i turns bc = Returns bc' ->
    ((0 < turns)%nat ->
       (length (pendingTransactions bc) + length (drawn (env i)) <= 1)%nat /\
       pendingTransactions bc' = []) /\
    (forall k, (i < k < i + turns)%nat -> (length (drawn (env k)) <= 1)%nat) /\
    length (chain bc') = (length (chain bc) + turns)%nat /\
    difficulty bc' = difficulty bc.
Proof.
  induction turns as [| turns IH]; intros i bc bc' H.
  - inversion H; subst bc'. repeat split; try lia.
  - cbn [simulateChain_from] in H. bind_inv H.
    destruct (simulateChain_inner_pool (drawn (env i)) bc) as [Hc [Hd Hp]].
    apply mine_returns in E.
    destruct E as [n [h [_ [Hm [_ [_ Ha]]]]]].
    rewrite constructMerkleTree_cases, Hp, length_app, length_map in Hm.
    destruct (Nat.leb_spec
                (length (pendingTransactions bc) + length (drawn (env i))) 1)
      as [Hsmall |]; [| discriminate Hm].
    destruct (IH _ _ _ H) as [Hfirst [Hlater [Hlen Hdiff]]].
    assert (Hpool : pendingTransactions a = []) by now rewrite Ha.
    assert (Hchain : length (chain a) = S (length (chain bc))).
    { rewrite Ha. cbn [chain]. rewrite length_app, Hc. cbn [length]. lia. }
    assert (Hdiffa : difficulty a = difficulty bc) by now rewrite Ha.
    repeat split.
    + exact Hsmall.
    + destruct turns as [| turns'].
      * inversion H; now subst bc'.
      * apply Hfirst. lia.
    + intros k Hk.
      destruct (Nat.eq_dec k (S i)) as [-> | Hne].
      * destruct turns as [| turns']; [lia |].
        destruct Hfirst as [Hf _]; [lia |].
        rewrite Hpool in Hf. exact Hf.
      * apply Hlater. lia.
    + rewrite Hlen, Hchain. lia.
    + now rewrite Hdiff.
Qed.

(** X16. [simulateChain] returns only when no turn leaves two or more
    transactions to mine: the first turn together with what was pending,
    and every later turn on its own, creates at most one transaction.
    When it returns, the chain has grown by exactly [numBlocks] blocks,
    the difficulty is the same, and (for [numBlocks > 0]) the pool is
    empty. *)
Theorem simulateChain_returns_only_on_small_rounds :
  forall (env : nat -> round_readings) (bc : Blockchain) (numBlocks : nat)
         (bc' : Blockchain),
    simulateChain env bc numBlocks = Returns bc' ->
    ((0 < numBlocks)%nat ->
       (length (pendingTransactions bc) + length (drawn (env 0%nat)) <= 1)%nat /\
       pendingTransactions bc' = []) /\
    (forall k, (0 < k < numBlocks)%nat -> (length (drawn (env k)) <= 1)%nat) /\
    length (chain bc') = (length (chain bc) + numBlocks)%nat /\
    difficulty bc' = difficulty bc.
Proof.
  intros env bc numBlocks bc' H.
  exact (simulateChain_from_returns env numBlocks 0 bc bc' H).
Qed.

Lemma simulateChain_returns_only_on_small_rounds_witness :
  exists bc',
    simulateChain quiet_readings (fresh 0) 3 = Returns bc' /\
    (length (pendingTransactions (fresh 0))
     + length (drawn (quiet_readings 0%nat)) <= 1)%nat /\
    pendingTransactions bc' = [] /\
    length (chain bc') = (length (chain (fresh 0)) + 3)%nat.
Proof.
  eexists.
  split; [vm_compute; reflexivity |].
  match goal with
  | |- _ /\ pendingTransactions ?bc' = [] /\ _ =>
      assert (H : simulateChain quiet_readings (fresh 0) 3 = Returns bc')
        by (vm_compute; reflexivity)
  end.
  destruct (simulateChain_returns_only_on_small_rounds _ _ _ _ H)
    as [Hfirst [_ [Hlen _]]].
  destruct Hfirst as [Hsmall Hpool]; [lia |].
  split; [exact Hsmall |]. split; [exact Hpool | exact Hlen].
Defined.

(** X17. If the first turn of the driver leaves two or more transactions
    in the pool, [simulateChain] does not return: when one of the draws
    of that turn the call stack has room for qualifies, it throws the
    [TypeError] of [mine()]; when none of them does and the room is used
    up, it throws the [RangeError] of the search. *)
Theorem simulateChain_throws_on_a_round_of_two :
  forall (env : nat -> round_readings) (bc : Blockchain) (numBlocks : nat),
    (1 < length (pendingTransactions bc) + length (drawn (env 0%nat)))%nat ->
    (forall bc', simulateChain env bc (S numBlocks) <> Returns bc') /\
    (forall d,
       find (qualifies (simulateChain_inner bc (drawn (env 0%nat))))
            (firstn (stack_room (env 0%nat)) (nonce_draws (env 0%nat))) = Some d ->
       simulateChain env bc (S numBlocks) = Throws TypeError) /\
    (find (qualifies (simulateChain_inner bc (drawn (env 0%nat))))
          (firstn (stack_room (env 0%nat)) (nonce_draws (env 0%nat))) = None ->
     (stack_room (env 0%nat) <= length (nonce_draws (env 0%nat)))%nat ->
     simulateChain env bc (S numBlocks) = Throws RangeError).
Proof.
  intros env bc numBlocks Hlen.
  destruct (simulateChain_inner_pool (drawn (env 0%nat)) bc) as [_ [_ Hp]].
  assert (Hpool : (1 < length (pendingTransactions
                                 (simulateChain_inner bc (drawn (env 0%nat)))))%nat).
  { rewrite Hp, length_app, length_map. exact Hlen. }
  unfold simulateChain. cbn [simulateChain_from].
  split; [| split].
  - intros bc' H. bind_inv H. exact (mine_stuck _ _ _ _ _ Hpool E).
  - intros d Hd.
    rewrite (mine_throws _ _ _ _ (nonce_of_draw d)); [reflexivity | | exact Hpool].
    rewrite proofOfWork_first, Hd. reflexivity.
  - intros Hnone Hroom. unfold mine.
    rewrite proofOfWork_first, Hnone.
    destruct (Nat.leb_spec (stack_room (env 0%nat))
                           (length (nonce_draws (env 0%nat)))); [reflexivity | lia].
Qed.

Lemma simulateChain_throws_on_a_round_of_two_witness :
  (1 < length (pendingTransactions (fresh 0))
       + length (drawn (crowded_readings 0%nat)))%nat /\
  find (qualifies (simulateChain_inner (fresh 0) (drawn (crowded_readings 0%nat))))
       (firstn (stack_room (crowded_readings 0%nat))
               (nonce_draws (crowded_readings 0%nat))) = Some (x0c, xe7) /\
  simulateChain crowded_readings (fresh 0) 3 = Throws TypeError /\
  find (qualifies (simulateChain_inner (fresh 0) (drawn (starved_readings 0%nat))))
       (firstn (stack_room (starved_readings 0%nat))
               (nonce_draws (starved_readings 0%nat))) = None /\
  (stack_room (starved_readings 0%nat)
   <= length (nonce_draws (starved_readings 0%nat)))%nat /\
  simulateChain starved_readings (fresh 0) 3 = Throws RangeError.
Proof.
  split; [cbn; lia |].
  split; [vm_compute; reflexivity |].
  destruct (simulateChain_throws_on_a_round_of_two crowded_readings (fresh 0) 2)
    as [_ [Htype _]].
  { cbn; lia. }
  split; [apply (Htype (x0c, xe7)); vm_compute; reflexivity |].
  split; [vm_compute; reflexivity |].
  split; [cbn; lia |].
  destruct (simulateChain_throws_on_a_round_of_two starved_readings (fresh 0) 2)
    as [_ [_ Hrange]].
  { cbn; lia. }
  apply Hrange; [vm_compute; reflexivity | cbn; lia].
Defined.

(** X18. The script at the end of the file never prints [true]: for every
    clock reading and every reading of the random sources, if the script
    reaches its last line, the validity it prints for the chain it has just
    built is [false]. *)
Theorem script_never_prints_true :
  forall (now : Z) (env : nat -> round_readings) (v : bool),
    script now env = Returns v -> v = false.
Proof.
  intros now env v H. unfold script in H.
  rewrite new_Blockchain_returns in H. cbn [bind] in H.
  bind_inv H. unfold simulateChain in E.
  rewrite simulateChain_from_run in E.
  assert (R : reachable a).
  { eapply run_reachable; [| exact E].
    exact (reachable_new now _ (new_Blockchain_returns now)). }
  rewrite (reachable_rejected _ R) in H. now inversion H.
Qed.

Lemma script_never_prints_true_witness :
  script 0 quiet_readings = Returns false /\ false = false.
Proof.
  split; [vm_compute; reflexivity |].
  apply (script_never_prints_true 0 quiet_readings false).
  vm_compute; reflexivity.
Defined.
